(** * qpid: broker session state and client reconnect engine

    A shallow embedding of
    - [qpid/client/amqp0_10/ConnectionImpl.cpp] (module [Client]) and
    - [qpid/broker/SessionState.cpp] (module [Broker]),
    with the properties their specification states about them. *)

From Stdlib Require Import ZArith Lia.
From stdpp Require Import base decidable option list strings gmap.

Local Open Scope Z_scope.

(** ** The client side: ConnectionImpl *)

Module Client.

(** [qpid::types::Variant] is declared outside these sources.  The value
    kinds the option table of [setOption] distinguishes are kept: a
    boolean, an integer, a string and a list (VAR_LIST), whose elements
    are read through [asString]. *)
Inductive Variant :=
| VarBool (b : bool)
| VarInt (z : Z)
| VarString (s : string)
| VarList (l : list string).

Inductive Exception :=
| MessagingException (what : string)
| InvalidConversion (what : string)
| TransportFailure (what : string)
| TargetCapacityExceeded (what : string)
| UrlInvalid (url : string).

Definition asBool (v : Variant) : Exception + bool :=
  match v with
  | VarBool b => inr b
  | VarInt z => inr (negb (z =? 0))
  | _ => inl (InvalidConversion "bool")
  end.

Definition asInt (v : Variant) : Exception + Z :=
  match v with
  | VarInt z => inr z
  | VarBool b => inr (if b then 1 else 0)
  | _ => inl (InvalidConversion "int")
  end.

Definition asString (v : Variant) : Exception + string :=
  match v with
  | VarString s => inr s
  | _ => inl (InvalidConversion "string")
  end.

(** [ConnectionSettings] is declared outside these sources: the
    settings are kept as the fields [setOption] and [tryConnect] have
    assigned, by field name; a field that is absent has the default of
    the struct. *)
Definition ConnectionSettings := gmap string Variant.

Record ConnectionImpl := mkConnection {
  replaceUrls : bool;
  reconnect : bool;
  timeout : Z;
  limit : Z;
  minReconnectInterval : Z;
  maxReconnectInterval : Z;
  retries : Z;
  reconnectOnLimitExceeded : bool;
  urls : list string;
  settings : ConnectionSettings
}.

Definition set_replaceUrls (b : bool) (c : ConnectionImpl) :=
  mkConnection b (reconnect c) (timeout c) (limit c) (minReconnectInterval c)
    (maxReconnectInterval c) (retries c) (reconnectOnLimitExceeded c) (urls c) (settings c).
Definition set_reconnect (b : bool) (c : ConnectionImpl) :=
  mkConnection (replaceUrls c) b (timeout c) (limit c) (minReconnectInterval c)
    (maxReconnectInterval c) (retries c) (reconnectOnLimitExceeded c) (urls c) (settings c).
Definition set_timeout (z : Z) (c : ConnectionImpl) :=
  mkConnection (replaceUrls c) (reconnect c) z (limit c) (minReconnectInterval c)
    (maxReconnectInterval c) (retries c) (reconnectOnLimitExceeded c) (urls c) (settings c).
Definition set_limit (z : Z) (c : ConnectionImpl) :=
  mkConnection (replaceUrls c) (reconnect c) (timeout c) z (minReconnectInterval c)
    (maxReconnectInterval c) (retries c) (reconnectOnLimitExceeded c) (urls c) (settings c).
Definition set_minReconnectInterval (z : Z) (c : ConnectionImpl) :=
  mkConnection (replaceUrls c) (reconnect c) (timeout c) (limit c) z
    (maxReconnectInterval c) (retries c) (reconnectOnLimitExceeded c) (urls c) (settings c).
Definition set_maxReconnectInterval (z : Z) (c : ConnectionImpl) :=
  mkConnection (replaceUrls c) (reconnect c) (timeout c) (limit c) (minReconnectInterval c)
    z (retries c) (reconnectOnLimitExceeded c) (urls c) (settings c).
Definition set_retries (z : Z) (c : ConnectionImpl) :=
  mkConnection (replaceUrls c) (reconnect c) (timeout c) (limit c) (minReconnectInterval c)
    (maxReconnectInterval c) z (reconnectOnLimitExceeded c) (urls c) (settings c).
Definition set_reconnectOnLimitExceeded (b : bool) (c : ConnectionImpl) :=
  mkConnection (replaceUrls c) (reconnect c) (timeout c) (limit c) (minReconnectInterval c)
    (maxReconnectInterval c) (retries c) b (urls c) (settings c).
Definition set_urls (l : list string) (c : ConnectionImpl) :=
  mkConnection (replaceUrls c) (reconnect c) (timeout c) (limit c) (minReconnectInterval c)
    (maxReconnectInterval c) (retries c) (reconnectOnLimitExceeded c) l (settings c).
Definition set_settings (s : ConnectionSettings) (c : ConnectionImpl) :=
  mkConnection (replaceUrls c) (reconnect c) (timeout c) (limit c) (minReconnectInterval c)
    (maxReconnectInterval c) (retries c) (reconnectOnLimitExceeded c) (urls c) s.

(** [merge(const std::string&, std::vector<std::string>&)]:
    [push_back] unless [std::find] already finds the value. *)
Definition merge (value : string) (l : list string) : list string :=
  if decide (value ∈ l) then l else l ++ [value].

(** [merge(const Variant::List&, std::vector<std::string>&)]: the loop
    over [from], left to right. *)
Definition merge_list (from to : list string) : list string :=
  foldl (fun acc v => merge v acc) to from.

(** An assignment through a conversion of the [Variant]; the
    conversion may throw. *)
Definition assign {A} (v : Exception + A) (k : A -> ConnectionImpl)
  : Exception + ConnectionImpl :=
  match v with
  | inl e => inl e
  | inr a => inr (k a)
  end.

Definition is_name (name a b : string) : bool :=
  bool_decide (name = a) || bool_decide (name = b).

Definition set_field (field : string) (v : Variant) (c : ConnectionImpl)
  : ConnectionImpl :=
  set_settings (<[field := v]> (settings c)) c.

(** [ConnectionImpl::setOption]. *)
Definition setOption (name : string) (value : Variant) (c : ConnectionImpl)
  : Exception + ConnectionImpl :=
  if bool_decide (name = "reconnect") then
    assign (asBool value) (fun b => set_reconnect b c)
  else if is_name name "reconnect-timeout" "reconnect_timeout" then
    assign (asInt value) (fun z => set_timeout z c)
  else if is_name name "reconnect-limit" "reconnect_limit" then
    assign (asInt value) (fun z => set_limit z c)
  else if is_name name "reconnect-interval" "reconnect_interval" then
    assign (asInt value)
      (fun z => set_maxReconnectInterval z (set_minReconnectInterval z c))
  else if is_name name "reconnect-interval-min" "reconnect_interval_min" then
    assign (asInt value) (fun z => set_minReconnectInterval z c)
  else if is_name name "reconnect-interval-max" "reconnect_interval_max" then
    assign (asInt value) (fun z => set_maxReconnectInterval z c)
  else if is_name name "reconnect-urls-replace" "reconnect_urls_replace" then
    assign (asBool value) (fun b => set_replaceUrls b c)
  else if is_name name "reconnect-urls" "reconnect_urls" then
    let c1 := if replaceUrls c then set_urls [] c else c in
    match value with
    | VarList l => inr (set_urls (merge_list l (urls c1)) c1)
    | _ => assign (asString value) (fun s => set_urls (merge s (urls c1)) c1)
    end
  else if bool_decide (name = "username") then
    assign (asString value) (fun s => set_field "username" (VarString s) c)
  else if bool_decide (name = "password") then
    assign (asString value) (fun s => set_field "password" (VarString s) c)
  else if is_name name "sasl-mechanism" "sasl_mechanism"
          || is_name name "sasl-mechanisms" "sasl_mechanisms" then
    assign (asString value) (fun s => set_field "mechanism" (VarString s) c)
  else if is_name name "sasl-service" "sasl_service" then
    assign (asString value) (fun s => set_field "service" (VarString s) c)
  else if is_name name "sasl-min-ssf" "sasl_min_ssf" then
    assign (asInt value) (fun z => set_field "minSsf" (VarInt z) c)
  else if is_name name "sasl-max-ssf" "sasl_max_ssf" then
    assign (asInt value) (fun z => set_field "maxSsf" (VarInt z) c)
  else if bool_decide (name = "heartbeat") then
    assign (asInt value) (fun z => set_field "heartbeat" (VarInt z) c)
  else if is_name name "tcp-nodelay" "tcp_nodelay" then
    assign (asBool value) (fun b => set_field "tcpNoDelay" (VarBool b) c)
  else if bool_decide (name = "locale") then
    assign (asString value) (fun s => set_field "locale" (VarString s) c)
  else if is_name name "max-channels" "max_channels" then
    assign (asInt value) (fun z => set_field "maxChannels" (VarInt z) c)
  else if is_name name "max-frame-size" "max_frame_size" then
    assign (asInt value) (fun z => set_field "maxFrameSize" (VarInt z) c)
  else if bool_decide (name = "bounds") then
    assign (asInt value) (fun z => set_field "bounds" (VarInt z) c)
  else if bool_decide (name = "transport") then
    assign (asString value) (fun s => set_field "protocol" (VarString s) c)
  else if is_name name "ssl-cert-name" "ssl_cert_name" then
    assign (asString value) (fun s => set_field "sslCertName" (VarString s) c)
  else if is_name name "x-reconnect-on-limit-exceeded" "x_reconnect_on_limit_exceeded" then
    assign (asBool value) (fun b => set_reconnectOnLimitExceeded b c)
  else
    inl (MessagingException ("Invalid option: " +:+ name +:+ " not recognised")).

(** [ConnectionImpl::setOptions]: the options in the iteration order of
    the [Variant::Map]; the first option that throws ends the loop. *)
Fixpoint setOptions (options : list (string * Variant)) (c : ConnectionImpl)
  : Exception + ConnectionImpl :=
  match options with
  | [] => inr c
  | (name, value) :: rest =>
      match setOption name value c with
      | inl e => inl e
      | inr c' => setOptions rest c'
      end
  end.

(** The member initialisers of the constructor. *)
Definition initial : ConnectionImpl :=
  mkConnection false false (-1) (-1) 3 60 0 true [] ∅.

(** [ConnectionImpl::ConnectionImpl(url, options)]: [setOptions], then
    [urls.insert(urls.begin(), url)]. *)
Definition new_ConnectionImpl (url : string) (options : list (string * Variant))
  : Exception + ConnectionImpl :=
  match setOptions options initial with
  | inl e => inl e
  | inr c => inr (set_urls (url :: urls c) c)
  end.

(** [ConnectionImpl::mergeUrls]: the known hosts, each as its string. *)
Definition mergeUrls (more : list string) (c : ConnectionImpl) : ConnectionImpl :=
  set_urls (merge_list more (urls c)) c.

(** *** The reconnect loop *)

(** [int64_t] arithmetic, wrap-around written out. *)
Definition wrap64 (z : Z) : Z := (z + 2 ^ 63) mod 2 ^ 64 - 2 ^ 63.

(** Instants and durations count ticks of the clock. *)
Definition AbsTime := Z.

(** What one pass of [resetSessions] over the tracked sessions meets. *)
Inductive ResetOutcome :=
| ResetOk
| ResetTransportFailure
| ResetLimitExceeded (what : string).

(** What [connection.open(url, settings)] meets: a [TransportFailure],
    or a broker that advertises its known hosts. *)
Inductive OpenOutcome :=
| OpenFails
| Opens (knownHosts : list string) (reset : ResetOutcome).

(** The network during one call of [tryConnect], by URL. *)
Definition Transport := string -> OpenOutcome.

Inductive TryResult :=
| TryTrue (c : ConnectionImpl)
| TryFalse (c : ConnectionImpl)
| TryThrow (e : Exception) (c : ConnectionImpl).

Inductive ConnectResult :=
| Connected (c : ConnectionImpl) (slept : list Z)
| Failed (e : Exception) (c : ConnectionImpl) (slept : list Z)
| Retrying (i : Z) (c : ConnectionImpl) (slept : list Z).

Section Reconnect.

(** [qpid::sys::TIME_SEC], the ticks of a [Duration] in one second, and
    the [qpid::Url] parser (user and password of a URL, or none when
    the text is not a URL) are declared outside these sources. *)
Variable TIME_SEC : Z.
Variable parseUrl : string -> option (string * string).

(** [expired(start, timeout)]; [now] is the reading of [qpid::sys::now()].
    A [Duration] is an [int64_t] of ticks: the difference of the two
    instants and the product [timeout * TIME_SEC] are taken in 64 bits. *)
Definition expired (start now : AbsTime) (timeout : Z) : bool :=
  if timeout =? 0 then true
  else if timeout <? 0 then false
  else
    let used := wrap64 (now - start) in
    let allowed := wrap64 (timeout * TIME_SEC) in
    allowed <? used.

(** [ConnectionImpl::resetSessions]. *)
Definition resetSessions (reset : ResetOutcome) (c : ConnectionImpl) : TryResult :=
  match reset with
  | ResetOk => TryTrue c
  | ResetTransportFailure => TryFalse c
  | ResetLimitExceeded what =>
      if reconnectOnLimitExceeded c then TryFalse c
      else TryThrow (TargetCapacityExceeded what) c
  end.

(** The loop of [ConnectionImpl::tryConnect] over the URLs from [todo] on. *)
Fixpoint tryConnect_from (net : Transport) (todo : list string) (c : ConnectionImpl)
  : TryResult :=
  match todo with
  | [] => TryFalse c
  | i :: rest =>
      match parseUrl i with
      | None => TryThrow (UrlInvalid i) c
      | Some (user, pass) =>
          let c1 := if bool_decide (user = "") then c
                    else set_field "username" (VarString user) c in
          let c2 := if bool_decide (pass = "") then c1
                    else set_field "password" (VarString pass) c1 in
          match net i with
          | OpenFails => tryConnect_from net rest c2
          | Opens knownHosts reset => resetSessions reset (mergeUrls knownHosts c2)
          end
      end
  end.

(** [ConnectionImpl::tryConnect]. *)
Definition tryConnect (net : Transport) (c : ConnectionImpl) : TryResult :=
  tryConnect_from net (urls c) c.

(** The [for] loop of [ConnectionImpl::connect] from the interval [i] on.
    The script gives, for each call of [tryConnect], the network it meets
    and the reading of the clock in the check of [expired] after it;
    [slept] collects the arguments of [qpid::sys::sleep].  A script that
    ends before the loop does leaves it [Retrying]. *)
Fixpoint connect_from (started : AbsTime) (script : list (Transport * AbsTime))
  (i : Z) (c : ConnectionImpl) (slept : list Z) : ConnectResult :=
  match script with
  | [] => Retrying i c slept
  | (net, now) :: rest =>
      match tryConnect net c with
      | TryThrow e c1 => Failed e c1 slept
      | TryTrue c1 => Connected (set_retries 0 c1) slept
      | TryFalse c1 =>
          if negb (reconnect c1) then
            Failed (TransportFailure "Failed to connect (reconnect disabled)") c1 slept
          else if (0 <=? limit c1) && (limit c1 <=? retries c1) then
            Failed (TransportFailure "Failed to connect within reconnect limit")
              (set_retries (retries c1 + 1) c1) slept
          else
            let c2 := if 0 <=? limit c1 then set_retries (retries c1 + 1) c1 else c1 in
            if expired started now (timeout c2) then
              Failed (TransportFailure "Failed to connect within reconnect timeout")
                c2 slept
            else
              connect_from started rest
                (Z.min (wrap64 (i * 2)) (maxReconnectInterval c2)) c2 (slept ++ [i])
      end
  end.

(** [ConnectionImpl::connect(started)]. *)
Definition connect (started : AbsTime) (script : list (Transport * AbsTime))
  (c : ConnectionImpl) : ConnectResult :=
  connect_from started script (minReconnectInterval c) c [].

End Reconnect.

Definition conn_of (r : TryResult) : ConnectionImpl :=
  match r with
  | TryTrue c | TryFalse c | TryThrow _ c => c
  end.

(** The reconnect policy of a connection: what the options set and
    [connect] counts. *)
Definition policy (c : ConnectionImpl) : bool * Z * Z * Z * Z * Z * bool :=
  (reconnect c, timeout c, limit c, minReconnectInterval c,
   maxReconnectInterval c, retries c, reconnectOnLimitExceeded c).

Definition slept_of (r : ConnectResult) : list Z :=
  match r with
  | Connected _ l | Failed _ _ l | Retrying _ _ l => l
  end.


(** Scenario data: a parser for URLs that carry no user and no
    password, a network on which no URL answers, one on which every URL
    answers and advertises [hosts], and a connection given by its policy. *)
Definition plain_url (u : string) : option (string * string) := Some ("", "").

Definition net_down : Transport := fun _ => OpenFails.

Definition net_up (hosts : list string) : Transport := fun _ => Opens hosts ResetOk.

Definition with_policy (reconnect : bool) (timeout limit lo hi : Z) (url : string)
  : ConnectionImpl :=
  match new_ConnectionImpl url
          [("reconnect", VarBool reconnect);
           ("reconnect-interval-max", VarInt hi);
           ("reconnect-interval-min", VarInt lo);
           ("reconnect-limit", VarInt limit);
           ("reconnect-timeout", VarInt timeout)] with
  | inr c => c
  | inl _ => initial
  end.

End Client.

(** ** The broker side: SessionState *)

Module Broker.

(** *** Sequence numbers, sets of them, session points *)

(** Modelled from the spec: [SequenceNumber], [SequenceSet] and
    [SessionPoint] (qpid/framing, qpid/SessionState.h) are not among the
    sources.  The specification gives a command id as a u32 wrap-around
    sequence, a sequence set as a set of command ids and a command point
    as a pair of a command id and a byte offset.  Ids are integers; the
    successor wraps at 2^32, and the order is that of a wrap-around
    sequence: [a] is before [b] when the difference [a - b], taken in 32
    bits and read as a signed number, is negative, that is when [b] is
    ahead of [a] by less than half the range. *)
Definition SequenceNumber := Z.
Abbreviation SequenceSet := (gset Z).

Definition next (id : SequenceNumber) : SequenceNumber := (id + 1) mod 2 ^ 32.

(** The difference of two ids in 32 bits, as a signed number. *)
Definition distance (a b : SequenceNumber) : Z := (a - b + 2 ^ 31) mod 2 ^ 32 - 2 ^ 31.

(** [a < b] on sequence numbers; [a >= b] is its negation. *)
Definition seq_lt (a b : SequenceNumber) : bool := distance a b <? 0.

Definition earlier (a b : SequenceNumber) : SequenceNumber := if seq_lt a b then a else b.

Record SessionPoint := mkPoint { command : SequenceNumber; offset : Z }.

Global Instance SessionPoint_eq_dec : EqDecision SessionPoint.
Proof. solve_decision. Defined.

(** [SequenceSet::front()]: the id of the set that is before the
    others, where the ids lie within half the range of each other and
    the order of the sequence is linear on them; none when the set is
    empty, where the source has no defined result. *)
Definition front (s : SequenceSet) : option SequenceNumber :=
  match elements s with
  | [] => None
  | x :: l => Some (foldr earlier x l)
  end.

(** How many commands the id [x] is behind the id [cur]. *)
Definition behind (cur x : SequenceNumber) : Z := (cur - x) mod 2 ^ 32.

(** The ids of the set are u32 and less than half the range behind
    [cur]: the order of the sequence is linear on them. *)
Definition window (cur : SequenceNumber) (X : SequenceSet) : Prop :=
  forall x, x ∈ X -> 0 <= x < 2 ^ 32 /\ behind cur x < 2 ^ 31.

(** *** Frames and messages *)

(** The operation a method body carries: execution.sync, which the
    invoker passes to [addPendingExecutionSync], or another command, by
    its name. *)
Inductive Operation :=
| ExecutionSyncOp
| OtherOp (name : string).

Record AMQMethodBody := mkMethod {
  operation : Operation;
  isContentBearing : bool;
  isSync : bool;
  acceptRequired : bool
}.

Inductive AMQBody :=
| MethodBody (m : AMQMethodBody)
| HeaderBody
| ContentBody (data : string)
| HeartbeatBody.

Record AMQFrame := mkFrame {
  body : AMQBody;
  getBof : bool;
  getEof : bool;
  getBos : bool;
  getEos : bool
}.

(** [AMQFrame::getMethod()]: the method body, or 0. *)
Definition getMethod (f : AMQFrame) : option AMQMethodBody :=
  match body f with
  | MethodBody m => Some m
  | _ => None
  end.

Record Message := mkMessage {
  getCommandId : SequenceNumber;
  getFrames : list AMQFrame;
  publisher : bool
}.

(** [FrameSet::getMethod()]: the method of the first method frame. *)
Definition frames_getMethod (frames : list AMQFrame) : option AMQMethodBody :=
  head (omap getMethod frames).

(** [Message::requiresAccept()]: the accept mode of the transfer. *)
Definition requiresAccept (m : Message) : bool :=
  match frames_getMethod (getFrames m) with
  | Some b => acceptRequired b
  | None => false
  end.

Global Instance Operation_eq_dec : EqDecision Operation.
Proof. solve_decision. Defined.
Global Instance AMQMethodBody_eq_dec : EqDecision AMQMethodBody.
Proof. solve_decision. Defined.
Global Instance AMQBody_eq_dec : EqDecision AMQBody.
Proof. solve_decision. Defined.
Global Instance AMQFrame_eq_dec : EqDecision AMQFrame.
Proof. solve_decision. Defined.
Global Instance Message_eq_dec : EqDecision Message.
Proof. solve_decision. Defined.

(** *** What the session calls on its collaborators *)

Definition AbsTime := Z.
Definition Duration := Z.
Definition Token := positive.

(** The commands sent through the handler's proxies and the requests
    made to the connection and the timer, in the order of the calls. *)
Inductive Event :=
| MessageStop (destination : string)
| MessageFlow (destination : string) (unit : Z) (value : Z)
| MessageSetFlowMode (destination : string) (mode : Z)
| MessageAccept (transfers : SequenceSet)
| ExecutionResult (id : SequenceNumber) (value : string)
| ExecutionSync
| SessionCompleted (commands : SequenceSet)
| Delivered (id : SequenceNumber) (maxFrameSize : Z)
| RequestIOProcessing
| TimerAdd (d : Duration)
| TimerCancel
| SemanticDetached
| SemanticClosed.

Inductive LogStatement :=
| Warning (text : string).

Inductive Exception :=
| NotImplementedException (text : string)
| InternalErrorException (text : string)
| ProtocolViolation (text : string)
| AssertFailure (expr : string)
| NullDereference (what : string)
| Undefined (what : string).

Record SessionHandler := mkHandler { getChannel : Z; getFrameMax : Z }.

Record Mgmt := mkMgmt { attached : Z; clientCredit : Z }.

(** [SessionState::IncompleteRcvMsg]: the back-pointer to the session
    (null or not), the message, and whether the message's receive
    completion has been cancelled. *)
Record IncompleteRcvMsg := mkIncomplete {
  session : bool;
  msg : Message;
  cancelled : bool
}.

(** [RateFlowcontrol] (qpid/broker/RateFlowcontrol.h) is not among the
    sources; the session uses these four members of it. *)
Class RateFlowcontrol (R : Type) := {
  getRate : R -> Z;
  flowStopped : R -> bool;
  receivedMessage : AbsTime -> Z -> R -> Z * R;
  sentCredit : AbsTime -> Z -> R -> R
}.

Record InvokerResult := mkResult {
  wasHandled : bool;
  getResult : option string
}.

Definition DeliveryRecord := string.

Section Session.
Context {R : Type} {rfc : RateFlowcontrol R}.

(** The session: the command cursor of the base class
    [qpid::SessionState], the members of [broker::SessionState], the
    [IncompleteRcvMsg] objects it has created, and the history of its
    calls: [out] for the collaborators, [log] for the warnings, and
    [completed] for the pending receives [completeRcvMsg] was called for. *)
Record SessionState := mkSession {
  receiverCurrent : SequenceNumber;
  receiverIncomplete : SequenceSet;
  receiverUnknownCompleted : SequenceSet;
  senderCommandPoint : SessionPoint;
  handler : option SessionHandler;
  msgBuilder : option Message;
  mgmtObject : option Mgmt;
  rateFlowcontrol : option R;
  scheduledRcvMsgs : list Token;
  flowControlTimer : option Duration;
  currentCommandComplete : bool;
  pendingExecutionSyncs : list SequenceNumber;
  accepted : SequenceSet;
  incompleteRcvMsgs : gset Token;
  objects : gmap Token IncompleteRcvMsg;
  out : list Event;
  log : list LogStatement;
  completed : list Token
}.

Definition set_receiverCurrent (v : SequenceNumber) (s : SessionState) : SessionState :=
  mkSession v (receiverIncomplete s) (receiverUnknownCompleted s) (senderCommandPoint s)
    (handler s) (msgBuilder s) (mgmtObject s) (rateFlowcontrol s) (scheduledRcvMsgs s)
    (flowControlTimer s) (currentCommandComplete s) (pendingExecutionSyncs s)
    (accepted s) (incompleteRcvMsgs s) (objects s) (out s) (log s) (completed s).
Definition set_receiverIncomplete (v : SequenceSet) (s : SessionState) : SessionState :=
  mkSession (receiverCurrent s) v (receiverUnknownCompleted s) (senderCommandPoint s)
    (handler s) (msgBuilder s) (mgmtObject s) (rateFlowcontrol s) (scheduledRcvMsgs s)
    (flowControlTimer s) (currentCommandComplete s) (pendingExecutionSyncs s)
    (accepted s) (incompleteRcvMsgs s) (objects s) (out s) (log s) (completed s).
Definition set_receiverUnknownCompleted (v : SequenceSet) (s : SessionState) : SessionState :=
  mkSession (receiverCurrent s) (receiverIncomplete s) v (senderCommandPoint s)
    (handler s) (msgBuilder s) (mgmtObject s) (rateFlowcontrol s) (scheduledRcvMsgs s)
    (flowControlTimer s) (currentCommandComplete s) (pendingExecutionSyncs s)
    (accepted s) (incompleteRcvMsgs s) (objects s) (out s) (log s) (completed s).
Definition set_senderCommandPoint (v : SessionPoint) (s : SessionState) : SessionState :=
  mkSession (receiverCurrent s) (receiverIncomplete s) (receiverUnknownCompleted s) v
    (handler s) (msgBuilder s) (mgmtObject s) (rateFlowcontrol s) (scheduledRcvMsgs s)
    (flowControlTimer s) (currentCommandComplete s) (pendingExecutionSyncs s)
    (accepted s) (incompleteRcvMsgs s) (objects s) (out s) (log s) (completed s).
Definition set_handler (v : option SessionHandler) (s : SessionState) : SessionState :=
  mkSession (receiverCurrent s) (receiverIncomplete s) (receiverUnknownCompleted s)
    (senderCommandPoint s) v (msgBuilder s) (mgmtObject s) (rateFlowcontrol s)
    (scheduledRcvMsgs s) (flowControlTimer s) (currentCommandComplete s)
    (pendingExecutionSyncs s) (accepted s) (incompleteRcvMsgs s) (objects s) (out s)
    (log s) (completed s).
Definition set_msgBuilder (v : option Message) (s : SessionState) : SessionState :=
  mkSession (receiverCurrent s) (receiverIncomplete s) (receiverUnknownCompleted s)
    (senderCommandPoint s) (handler s) v (mgmtObject s) (rateFlowcontrol s)
    (scheduledRcvMsgs s) (flowControlTimer s) (currentCommandComplete s)
    (pendingExecutionSyncs s) (accepted s) (incompleteRcvMsgs s) (objects s) (out s)
    (log s) (completed s).
Definition set_mgmtObject (v : option Mgmt) (s : SessionState) : SessionState :=
  mkSession (receiverCurrent s) (receiverIncomplete s) (receiverUnknownCompleted s)
    (senderCommandPoint s) (handler s) (msgBuilder s) v (rateFlowcontrol s)
    (scheduledRcvMsgs s) (flowControlTimer s) (currentCommandComplete s)
    (pendingExecutionSyncs s) (accepted s) (incompleteRcvMsgs s) (objects s) (out s)
    (log s) (completed s).
Definition set_rateFlowcontrol (v : option R) (s : SessionState) : SessionState :=
  mkSession (receiverCurrent s) (receiverIncomplete s) (receiverUnknownCompleted s)
    (senderCommandPoint s) (handler s) (msgBuilder s) (mgmtObject s) v
    (scheduledRcvMsgs s) (flowControlTimer s) (currentCommandComplete s)
    (pendingExecutionSyncs s) (accepted s) (incompleteRcvMsgs s) (objects s) (out s)
    (log s) (completed s).
Definition set_scheduledRcvMsgs (v : list Token) (s : SessionState) : SessionState :=
  mkSession (receiverCurrent s) (receiverIncomplete s) (receiverUnknownCompleted s)
    (senderCommandPoint s) (handler s) (msgBuilder s) (mgmtObject s) (rateFlowcontrol s)
    v (flowControlTimer s) (currentCommandComplete s) (pendingExecutionSyncs s)
    (accepted s) (incompleteRcvMsgs s) (objects s) (out s) (log s) (completed s).
Definition set_flowControlTimer (v : option Duration) (s : SessionState) : SessionState :=
  mkSession (receiverCurrent s) (receiverIncomplete s) (receiverUnknownCompleted s)
    (senderCommandPoint s) (handler s) (msgBuilder s) (mgmtObject s) (rateFlowcontrol s)
    (scheduledRcvMsgs s) v (currentCommandComplete s) (pendingExecutionSyncs s)
    (accepted s) (incompleteRcvMsgs s) (objects s) (out s) (log s) (completed s).
Definition set_currentCommandComplete (v : bool) (s : SessionState) : SessionState :=
  mkSession (receiverCurrent s) (receiverIncomplete s) (receiverUnknownCompleted s)
    (senderCommandPoint s) (handler s) (msgBuilder s) (mgmtObject s) (rateFlowcontrol s)
    (scheduledRcvMsgs s) (flowControlTimer s) v (pendingExecutionSyncs s) (accepted s)
    (incompleteRcvMsgs s) (objects s) (out s) (log s) (completed s).
Definition set_pendingExecutionSyncs (v : list SequenceNumber) (s : SessionState) : SessionState :=
  mkSession (receiverCurrent s) (receiverIncomplete s) (receiverUnknownCompleted s)
    (senderCommandPoint s) (handler s) (msgBuilder s) (mgmtObject s) (rateFlowcontrol s)
    (scheduledRcvMsgs s) (flowControlTimer s) (currentCommandComplete s) v (accepted s)
    (incompleteRcvMsgs s) (objects s) (out s) (log s) (completed s).
Definition set_accepted (v : SequenceSet) (s : SessionState) : SessionState :=
  mkSession (receiverCurrent s) (receiverIncomplete s) (receiverUnknownCompleted s)
    (senderCommandPoint s) (handler s) (msgBuilder s) (mgmtObject s) (rateFlowcontrol s)
    (scheduledRcvMsgs s) (flowControlTimer s) (currentCommandComplete s)
    (pendingExecutionSyncs s) v (incompleteRcvMsgs s) (objects s) (out s) (log s)
    (completed s).
Definition set_incompleteRcvMsgs (v : gset Token) (s : SessionState) : SessionState :=
  mkSession (receiverCurrent s) (receiverIncomplete s) (receiverUnknownCompleted s)
    (senderCommandPoint s) (handler s) (msgBuilder s) (mgmtObject s) (rateFlowcontrol s)
    (scheduledRcvMsgs s) (flowControlTimer s) (currentCommandComplete s)
    (pendingExecutionSyncs s) (accepted s) v (objects s) (out s) (log s) (completed s).
Definition set_objects (v : gmap Token IncompleteRcvMsg) (s : SessionState) : SessionState :=
  mkSession (receiverCurrent s) (receiverIncomplete s) (receiverUnknownCompleted s)
    (senderCommandPoint s) (handler s) (msgBuilder s) (mgmtObject s) (rateFlowcontrol s)
    (scheduledRcvMsgs s) (flowControlTimer s) (currentCommandComplete s)
    (pendingExecutionSyncs s) (accepted s) (incompleteRcvMsgs s) v (out s) (log s)
    (completed s).
Definition set_out (v : list Event) (s : SessionState) : SessionState :=
  mkSession (receiverCurrent s) (receiverIncomplete s) (receiverUnknownCompleted s)
    (senderCommandPoint s) (handler s) (msgBuilder s) (mgmtObject s) (rateFlowcontrol s)
    (scheduledRcvMsgs s) (flowControlTimer s) (currentCommandComplete s)
    (pendingExecutionSyncs s) (accepted s) (incompleteRcvMsgs s) (objects s) v (log s)
    (completed s).
Definition set_log (v : list LogStatement) (s : SessionState) : SessionState :=
  mkSession (receiverCurrent s) (receiverIncomplete s) (receiverUnknownCompleted s)
    (senderCommandPoint s) (handler s) (msgBuilder s) (mgmtObject s) (rateFlowcontrol s)
    (scheduledRcvMsgs s) (flowControlTimer s) (currentCommandComplete s)
    (pendingExecutionSyncs s) (accepted s) (incompleteRcvMsgs s) (objects s) (out s) v
    (completed s).
Definition set_completed (v : list Token) (s : SessionState) : SessionState :=
  mkSession (receiverCurrent s) (receiverIncomplete s) (receiverUnknownCompleted s)
    (senderCommandPoint s) (handler s) (msgBuilder s) (mgmtObject s) (rateFlowcontrol s)
    (scheduledRcvMsgs s) (flowControlTimer s) (currentCommandComplete s)
    (pendingExecutionSyncs s) (accepted s) (incompleteRcvMsgs s) (objects s) (out s)
    (log s) v.

(** *** Control: a state and exception monad

    A member function is a function from the session before the call to
    its result and the session after it; [Throw] is a C++ exception, a
    failed [assert], or a step the source leaves undefined. *)
Inductive Res (A : Type) :=
| Ok (a : A) (s : SessionState)
| Throw (e : Exception) (s : SessionState).
Global Arguments Ok {A} a s.
Global Arguments Throw {A} e s.

Definition M (A : Type) := SessionState -> Res A.

Definition ret {A} (a : A) : M A := fun s => Ok a s.

Definition bind {A B} (c : M A) (k : A -> M B) : M B :=
  fun s => match c s with
           | Ok a s' => k a s'
           | Throw e s' => Throw e s'
           end.

Definition throw {A} (e : Exception) : M A := fun s => Throw e s.
Definition get {A} (f : SessionState -> A) : M A := fun s => Ok (f s) s.
Definition modify (f : SessionState -> SessionState) : M unit := fun s => Ok tt (f s).
Definition when (b : bool) (c : M unit) : M unit := if b then c else ret tt.

Definition state_of {A} (r : Res A) : SessionState :=
  match r with
  | Ok _ s | Throw _ s => s
  end.

End Session.

Global Arguments SessionState : clear implicits.
Global Arguments Res : clear implicits.
Global Arguments M : clear implicits.

Declare Scope session_scope.
Delimit Scope session_scope with session.
Notation "'let*' x ':=' c 'in' k" := (bind c (fun x => k))
  (at level 10, x name, c at level 100, k at level 200) : session_scope.
Notation "c ';;;' k" := (bind c (fun _ => k))
  (at level 100, k at level 200, right associativity) : session_scope.

(** *** The collaborators of the session *)

(** The adapter the invoker calls for a command other than
    execution.sync, the semantic layer ([SemanticState::handle], which
    answers whether it left an asynchronous completer on the message),
    [DeliveryRecord::deliver] and the units of [qpid::sys::Duration] are
    not among the sources. *)
Class Collaborators (R : Type) := {
  adapter : AMQMethodBody -> M R InvokerResult;
  semanticState_handle : Message -> M R bool;
  record_deliver : DeliveryRecord -> SequenceNumber -> Z -> M R unit;
  TIME_SEC : Duration;
  TIME_MSEC : Duration
}.

Section Operations.
Context {R : Type} {rfc : RateFlowcontrol R} {env : Collaborators R}.
Local Open Scope session_scope.

Definition isAttached (s : SessionState R) : bool := bool_decide (is_Some (handler s)).

(** [getProxy()]: [assert(isAttached())], then the handler's proxy. *)
Definition getProxy : M R unit :=
  fun s => if isAttached s then Ok tt s else Throw (AssertFailure "isAttached()") s.

(** [getConnection()], as far as [assert(isAttached())]. *)
Definition getConnection : M R SessionHandler :=
  fun s => match handler s with
           | Some h => Ok h s
           | None => Throw (AssertFailure "isAttached()") s
           end.

(** [getClusterOrderProxy()]: [handler->getClusterOrderProxy()]. *)
Definition getClusterOrderProxy : M R unit :=
  fun s => if isAttached s then Ok tt s else Throw (NullDereference "handler") s.

(** A command sent through a proxy, a request to the connection. *)
Definition emit (e : Event) : M R unit := modify (fun s => set_out (out s ++ [e]) s).

Definition QPID_LOG (l : LogStatement) : M R unit :=
  modify (fun s => set_log (log s ++ [l]) s).

(** Modelled from the spec: [receiverCompleted] of the base class
    [qpid::SessionState] is not among the sources.  It removes the id
    from the incomplete set and adds it to the completed ids to send;
    completing an id that is not incomplete is a no-op. *)
Definition receiverCompleted (id : SequenceNumber) : M R unit :=
  modify (fun s =>
    if decide (id ∈ receiverIncomplete s) then
      set_receiverUnknownCompleted ({[id]} ∪ receiverUnknownCompleted s)
        (set_receiverIncomplete (receiverIncomplete s ∖ {[id]}) s)
    else s).

(** [receiverGetIncomplete().front()]. *)
Definition receiverGetIncomplete_front : M R SequenceNumber :=
  fun s => match front (receiverIncomplete s) with
           | Some lo => Ok lo s
           | None => Throw (Undefined "front() of an empty SequenceSet") s
           end.

(** Modelled from the spec: [handler->sendCompletion()]
    ([SessionHandler]'s definition is not among the sources) flushes the
    completed ids to the peer. *)
Definition sendCompletion : M R unit :=
  fun s => if isAttached s
           then emit (SessionCompleted (receiverUnknownCompleted s)) s
           else Throw (NullDereference "handler") s.

(** [SessionState::sendAcceptAndCompletion]. *)
Definition sendAcceptAndCompletion : M R unit :=
  (let* acc := get accepted in
   when (negb (bool_decide (acc = ∅)))
     (getProxy ;;;
      emit (MessageAccept acc) ;;;
      modify (set_accepted ∅))) ;;;
  sendCompletion.

(** [SessionState::addPendingExecutionSync]. *)
Definition addPendingExecutionSync : M R unit :=
  let* syncCommandId := get receiverCurrent in
  let* lo := receiverGetIncomplete_front in
  when (seq_lt lo syncCommandId)
    (modify (set_currentCommandComplete false) ;;;
     modify (fun s => set_pendingExecutionSyncs (pendingExecutionSyncs s ++ [syncCommandId]) s)).

(** [invoke(adapter, *method)]: execution.sync reaches
    [addPendingExecutionSync]; another command reaches the adapter. *)
Definition invoke (method : AMQMethodBody) : M R InvokerResult :=
  match operation method with
  | ExecutionSyncOp => addPendingExecutionSync ;;; ret (mkResult true None)
  | OtherOp _ => adapter method
  end.

Definition method_text (method : AMQMethodBody) : string :=
  match operation method with
  | ExecutionSyncOp => "execution.sync"
  | OtherOp name => name
  end.

(** [SessionState::handleCommand]. *)
Definition handleCommand (method : AMQMethodBody) (id : SequenceNumber) : M R unit :=
  modify (set_currentCommandComplete true) ;;;
  let* invocation := invoke method in
  (let* complete := get currentCommandComplete in
   when complete (receiverCompleted id)) ;;;
  (if negb (wasHandled invocation) then
     throw (NotImplementedException ("Not implemented: " +:+ method_text method))
   else
     match getResult invocation with
     | Some value => getProxy ;;; emit (ExecutionResult id value)
     | None => ret tt
     end) ;;;
  let* complete := get currentCommandComplete in
  when (isSync method && complete) sendAcceptAndCompletion.

(** The loop of [completeRcvMsg] over the queue of pending
    execution.sync commands; [queue] is [pendingExecutionSyncs]. *)
Fixpoint completeExecutionSyncs (queue : list SequenceNumber) (callSendCompletion : bool)
  : M R bool :=
  match queue with
  | [] => ret callSendCompletion
  | id :: rest =>
      let* lo := receiverGetIncomplete_front in
      if negb (seq_lt lo id) then
        modify (set_pendingExecutionSyncs rest) ;;;
        receiverCompleted id ;;;
        completeExecutionSyncs rest true
      else ret callSendCompletion
  end.

(** [SessionState::completeRcvMsg]. *)
Definition completeRcvMsg (msg : Message) : M R unit :=
  receiverCompleted (getCommandId msg) ;;;
  when (requiresAccept msg)
    (modify (fun s => set_accepted ({[getCommandId msg]} ∪ accepted s) s)) ;;;
  let* queue := get pendingExecutionSyncs in
  let* callSendCompletion := completeExecutionSyncs queue false in
  match frames_getMethod (getFrames msg) with
  | None => throw (NullDereference "getMethod()")
  | Some method =>
      if isSync method then sendAcceptAndCompletion
      else when callSendCompletion sendCompletion
  end.

(** [SessionState::processSendCredit]; [now] is the reading of
    [AbsTime::now()]. *)
Definition processSendCredit (msgs : Z) (now : AbsTime) : M R bool :=
  let* flowcontrol := get rateFlowcontrol in
  match flowcontrol with
  | None => throw (NullDereference "rateFlowcontrol")
  | Some rf =>
      if (0 <? msgs) && flowStopped rf then
        QPID_LOG (Warning "producer throttling violation") ;;;
        getClusterOrderProxy ;;;
        emit (MessageStop "") ;;;
        ret true
      else
        let (sendCredit, rf1) := receivedMessage now msgs rf in
        modify (set_rateFlowcontrol (Some rf1)) ;;;
        modify (fun s => set_mgmtObject
          ((fun m => mkMgmt (attached m) (clientCredit m - msgs)) <$> mgmtObject s) s) ;;;
        if 0 <? sendCredit then
          getClusterOrderProxy ;;;
          emit (MessageFlow "" 0 sendCredit) ;;;
          modify (set_rateFlowcontrol (Some (sentCredit now sendCredit rf1))) ;;;
          modify (fun s => set_mgmtObject
            ((fun m => mkMgmt (attached m) (clientCredit m + sendCredit)) <$> mgmtObject s) s) ;;;
          ret true
        else ret (negb (flowStopped rf1))
  end.

(** [SessionState::deliver]. *)
Definition deliver (msg : DeliveryRecord) (sync : bool) : M R unit :=
  let* connection := getConnection in
  let maxFrameSize := getFrameMax connection in
  let* point := get senderCommandPoint in
  if negb (offset point =? 0) then
    throw (AssertFailure "senderGetCommandPoint().offset == 0")
  else
    let commandId := command point in
    getProxy ;;;
    record_deliver msg commandId maxFrameSize ;;;
    let* moved := get senderCommandPoint in
    if negb (bool_decide (moved = mkPoint (next commandId) 0)) then
      throw (AssertFailure "senderGetCommandPoint() == SessionPoint(commandId+1, 0)")
    else
      when sync (getProxy ;;; emit ExecutionSync).

(** [SessionState::detach] and [disableOutput]. *)
Definition detach : M R unit :=
  emit SemanticDetached ;;;
  modify (set_handler None) ;;;
  modify (fun s => set_mgmtObject ((fun m => mkMgmt 0 (clientCredit m)) <$> mgmtObject s) s).

(** [SessionState::attach]. *)
Definition attach (h : SessionHandler) : M R unit :=
  modify (set_handler (Some h)) ;;;
  modify (fun s => set_mgmtObject ((fun m => mkMgmt 1 (clientCredit m)) <$> mgmtObject s) s).

(** *** Pending receives *)

(** Modelled from the spec: [createPendingMsg] (SessionState.h) is not
    among the sources.  It is [register] of the specification: it
    inserts a new pending receive for the envelope and returns its
    token; registering an envelope that is registered fails. *)
Definition createPendingMsg (m : Message) : M R Token :=
  fun s =>
    if bool_decide (∃ t, t ∈ incompleteRcvMsgs s ∧ msg <$> objects s !! t = Some m)
    then Throw (AssertFailure "envelope already registered") s
    else
      let this := fresh (dom (objects s)) in
      Ok this
        (set_incompleteRcvMsgs ({[this]} ∪ incompleteRcvMsgs s)
           (set_objects (<[this := mkIncomplete true m false]> (objects s)) s)).

(** The pending receive behind a token. *)
Definition deref (this : Token) : M R IncompleteRcvMsg :=
  fun s => match objects s !! this with
           | Some i => Ok i s
           | None => Throw (Undefined "dangling IncompleteRcvMsg") s
           end.

(** [SessionState::IncompleteRcvMsg::operator()(bool sync)]. *)
Definition IncompleteRcvMsg_call (this : Token) (sync : bool) : M R unit :=
  let* i := deref this in
  if negb (session i) then throw (NullDereference "session")
  else
    let* registry := get incompleteRcvMsgs in
    when (bool_decide (this ∈ registry))
      (modify (set_incompleteRcvMsgs (registry ∖ {[this]})) ;;;
       let* isAttached := get isAttached in
       when isAttached
         (if sync then
            modify (fun s => set_completed (completed s ++ [this]) s) ;;;
            completeRcvMsg (msg i)
          else
            modify (fun s => set_scheduledRcvMsgs (scheduledRcvMsgs s ++ [this]) s) ;;;
            let* scheduled := get scheduledRcvMsgs in
            when (bool_decide (length scheduled = 1%nat))
              (getConnection ;;; emit RequestIOProcessing))).

(** The loop of [IncompleteRcvMsg::scheduledCompleter] over the deque. *)
Fixpoint scheduledCompleter_loop (msgs : list Token) : M R unit :=
  match msgs with
  | [] => ret tt
  | iMsg :: rest =>
      modify (set_scheduledRcvMsgs rest) ;;;
      let* i := deref iMsg in
      let* isAttached := get isAttached in
      when (session i && isAttached)
        (modify (fun s => set_completed (completed s ++ [iMsg]) s) ;;;
         completeRcvMsg (msg i)) ;;;
      scheduledCompleter_loop rest
  end.

(** [SessionState::IncompleteRcvMsg::scheduledCompleter], called with
    the session's deque. *)
Definition scheduledCompleter : M R unit :=
  let* msgs := get scheduledRcvMsgs in
  scheduledCompleter_loop msgs.

(** [SessionState::IncompleteRcvMsg::cancel]: the message's receive
    completion is cancelled and the back-pointer cleared. *)
Definition cancel_object (i : IncompleteRcvMsg) : IncompleteRcvMsg :=
  mkIncomplete false (msg i) true.

Definition IncompleteRcvMsg_cancel (this : Token) : M R unit :=
  let* i := deref this in
  modify (fun s => set_objects (<[this := cancel_object i]> (objects s)) s).

(** Modelled from the spec: the receive completion of a message
    ([AsyncCompletion]) is not among the sources.  A completion that
    arrives after [cancel] is a no-op; one that arrives before it
    invokes the callback, [IncompleteRcvMsg::operator()]. *)
Definition complete (this : Token) (sync : bool) : M R unit :=
  let* i := deref this in
  if cancelled i then ret tt else IncompleteRcvMsg_call this sync.

(** The loop of the destructor over its copy of the registry. *)
Fixpoint cancel_all (copy : list Token) : M R unit :=
  match copy with
  | [] => ret tt
  | ref :: rest => IncompleteRcvMsg_cancel ref ;;; cancel_all rest
  end.

(** [SessionState::~SessionState]. *)
Definition destroy : M R unit :=
  emit SemanticClosed ;;;
  (let* timer := get flowControlTimer in
   when (bool_decide (is_Some timer)) (emit TimerCancel)) ;;;
  let* copy := get incompleteRcvMsgs in
  modify (set_incompleteRcvMsgs ∅) ;;;
  cancel_all (elements copy) ;;;
  modify (set_scheduledRcvMsgs []).

(** *** Inbound frames *)

(** Modelled from the spec: [MessageBuilder] is not among the sources.
    [start] opens an envelope bound to the command id, [handle] appends
    the frame to the open envelope and fails with a protocol violation
    when none is open, [end] closes it. *)
Definition msgBuilder_start (id : SequenceNumber) : M R unit :=
  modify (set_msgBuilder (Some (mkMessage id [] false))).

Definition msgBuilder_handle (frame : AMQFrame) : M R unit :=
  fun s => match msgBuilder s with
           | Some m =>
               Ok tt (set_msgBuilder
                        (Some (mkMessage (getCommandId m) (getFrames m ++ [frame])
                                 (publisher m))) s)
           | None => Throw (ProtocolViolation "no frameset is open") s
           end.

Definition msgBuilder_end : M R unit := modify (set_msgBuilder None).

(** The message [msg] points to in [handleContent], changed in place. *)
Definition update_msg (f : Message -> Message) : M R unit :=
  modify (fun s => set_msgBuilder (f <$> msgBuilder s) s).

Definition the_msg : M R Message :=
  fun s => match msgBuilder s with
           | Some m => Ok m s
           | None => Throw (NullDereference "msg") s
           end.

Definition dummy_header : AMQFrame := mkFrame HeaderBody false false true true.

(** [SessionState::handleContent], its first part: the frame goes to
    the message builder and a frameset that ends goes to the semantic
    layer and becomes a pending receive. *)
Definition handleContent_message (frame : AMQFrame) (id : SequenceNumber) : M R unit :=
  when (getBof frame && getBos frame) (msgBuilder_start id) ;;;
  msgBuilder_handle frame ;;;
  when (getEof frame && getEos frame)
    (when (getBof frame)
       (update_msg (fun m =>
          mkMessage (getCommandId m) (getFrames m ++ [dummy_header]) (publisher m))) ;;;
     getConnection ;;;
     update_msg (fun m => mkMessage (getCommandId m) (getFrames m) true) ;;;
     let* m := the_msg in
     let* pending := semanticState_handle m in
     msgBuilder_end ;;;
     let* callback := createPendingMsg m in
     when (negb pending) (complete callback true)).

(** [SessionState::handleContent], its second part: producer flow
    control; [now] is the reading of [AbsTime::now()] in
    [processSendCredit]. *)
Definition handleContent_credit (frame : AMQFrame) (now : AbsTime) : M R unit :=
  let* flowcontrol := get rateFlowcontrol in
  match flowcontrol with
  | Some rf =>
      when (getBof frame && getBos frame)
        (let* credit := processSendCredit 1 now in
         when (negb credit)
           (if getRate rf =? 0 then throw (Undefined "division by zero")
            else
              let d := Z.min (TIME_SEC * 50 / getRate rf) (500 * TIME_MSEC) in
              modify (set_flowControlTimer (Some d)) ;;;
              emit (TimerAdd d)))
  | None => ret tt
  end.

(** [SessionState::handleContent]. *)
Definition handleContent (frame : AMQFrame) (id : SequenceNumber) (now : AbsTime)
  : M R unit :=
  handleContent_message frame id ;;;
  handleContent_credit frame now.

(** [SessionState::handleIn]. *)
Definition handleIn (frame : AMQFrame) (now : AbsTime) : M R unit :=
  let* commandId := get receiverCurrent in
  match getMethod frame with
  | None => handleContent frame commandId now
  | Some m =>
      if isContentBearing m then handleContent frame commandId now
      else if getBof frame && getEof frame then handleCommand m commandId
      else throw (InternalErrorException "Cannot handle multi-frame command segments yet")
  end.

(** *** The life of the pending receives

    The calls that reach the registry of pending receives, each one
    atomic: a registration on the session's thread, a completion that
    fires on any thread (it holds the registry lock), the drain of the
    scheduled completions on the I/O thread, and the detach, the attach
    and the destruction of the session.  [cancel] has no caller but the
    destructor. *)
Inductive Call :=
| Register (m : Message)
| Complete (this : Token) (sync : bool)
| Drain
| Detach
| Attach (h : SessionHandler)
| Destroy.

Definition call (c : Call) : M R unit :=
  match c with
  | Register m => createPendingMsg m ;;; ret tt
  | Complete this sync => complete this sync
  | Drain => scheduledCompleter
  | Detach => detach
  | Attach h => attach h
  | Destroy => destroy
  end.

(** A call that throws ends there; the next call meets the session as
    the throw left it. *)
Definition run (calls : list Call) (s : SessionState R) : SessionState R :=
  foldl (fun s c => state_of (call c s)) s calls.

(** The registry, the deque, the history of completions and the pending
    receives fit together: a token is in at most one of the registry,
    the deque and the history, once; each has its object; and an object
    that is cancelled or has lost its back-pointer has both happened to
    it and is out of the registry. *)
Definition pending_wf (s : SessionState R) : Prop :=
  NoDup (scheduledRcvMsgs s) /\ NoDup (completed s) /\
  (forall t, t ∈ scheduledRcvMsgs s -> (t ∉ incompleteRcvMsgs s) /\ (t ∉ completed s)) /\
  (forall t, t ∈ completed s -> t ∉ incompleteRcvMsgs s) /\
  (forall t, t ∈ incompleteRcvMsgs s \/ t ∈ scheduledRcvMsgs s \/ t ∈ completed s ->
     is_Some (objects s !! t)) /\
  (forall t i, objects s !! t = Some i -> cancelled i = true \/ session i = false ->
     (t ∉ incompleteRcvMsgs s) /\ cancelled i = true /\ session i = false).


(** Two sessions with the same pending receives and the same handler. *)
Definition same_pending (s s' : SessionState R) : Prop :=
  incompleteRcvMsgs s' = incompleteRcvMsgs s /\
  scheduledRcvMsgs s' = scheduledRcvMsgs s /\
  completed s' = completed s /\
  objects s' = objects s /\
  handler s' = handler s.

(** What the batched accept and completion put on the wire: the
    accept for the pending accepts, when there are any, then the
    completed ids. *)
Definition accept_and_completion (s : SessionState R) : list Event :=
  (if bool_decide (accepted s = ∅) then [] else [MessageAccept (accepted s)])
  ++ [SessionCompleted (receiverUnknownCompleted s)].

End Operations.

(** *** A scenario

    A flow control that holds a rate and the credit outstanding and
    stops when the credit outstanding reaches the rate; an adapter that
    handles every command and answers queries with a result; a semantic
    layer that completes at once; a delivery that sends one command. *)
Record Bucket := mkBucket { rate : Z; outstanding : Z }.

Global Instance Bucket_flowcontrol : RateFlowcontrol Bucket := {|
  getRate := rate;
  flowStopped b := rate b <=? outstanding b;
  receivedMessage now msgs b :=
    (if rate b <=? outstanding b then 0 else rate b - outstanding b, b);
  sentCredit now credit b := mkBucket (rate b) (outstanding b + credit)
|}.

Global Instance scenario : Collaborators Bucket := {|
  adapter m :=
    ret (mkResult (negb (bool_decide (operation m = OtherOp "unknown")))
           (if bool_decide (operation m = OtherOp "query") then Some "answer" else None));
  semanticState_handle m := ret false;
  record_deliver msg id maxFrameSize :=
    bind (emit (Delivered id maxFrameSize))
      (fun _ => modify (set_senderCommandPoint (mkPoint (next id) 0)));
  TIME_SEC := 1000000000;
  TIME_MSEC := 1000000
|}.

(** An attached session that is receiving command [current], with the
    given incomplete ids and queue of pending execution.sync commands. *)
Definition receiving (current : SequenceNumber) (incomplete : SequenceSet)
  (queue : list SequenceNumber) (flowcontrol : option Bucket) : SessionState Bucket :=
  mkSession current incomplete ∅ (mkPoint 0 0) (Some (mkHandler 1 65535)) None None
    flowcontrol [] None true queue ∅ ∅ ∅ [] [] [].

Definition transfer (sync : bool) : AMQMethodBody :=
  mkMethod (OtherOp "message.transfer") true sync true.

Definition execution_sync : AMQMethodBody := mkMethod ExecutionSyncOp false true false.

Definition query : AMQMethodBody := mkMethod (OtherOp "query") false true false.

(** The message of a transfer received as command [id]. *)
Definition message_of (id : SequenceNumber) (sync : bool) : Message :=
  mkMessage id [mkFrame (MethodBody (transfer sync)) true false true true; dummy_header]
    true.

End Broker.
(** ** Further definitions for the client *)

Module ClientMore.
Import Client.

(** The option names [setOption] recognises, in the order of its tests. *)
Definition recognized_options : list string :=
  ["reconnect";
   "reconnect-timeout"; "reconnect_timeout";
   "reconnect-limit"; "reconnect_limit";
   "reconnect-interval"; "reconnect_interval";
   "reconnect-interval-min"; "reconnect_interval_min";
   "reconnect-interval-max"; "reconnect_interval_max";
   "reconnect-urls-replace"; "reconnect_urls_replace";
   "reconnect-urls"; "reconnect_urls";
   "username"; "password";
   "sasl-mechanism"; "sasl_mechanism"; "sasl-mechanisms"; "sasl_mechanisms";
   "sasl-service"; "sasl_service";
   "sasl-min-ssf"; "sasl_min_ssf";
   "sasl-max-ssf"; "sasl_max_ssf";
   "heartbeat";
   "tcp-nodelay"; "tcp_nodelay";
   "locale";
   "max-channels"; "max_channels";
   "max-frame-size"; "max_frame_size";
   "bounds"; "transport";
   "ssl-cert-name"; "ssl_cert_name";
   "x-reconnect-on-limit-exceeded"; "x_reconnect_on_limit_exceeded"].

(** The names that come in two or more spellings, each with the first
    spelling [setOption] tests. *)
Definition option_aliases : list (string * string) :=
  [("reconnect-timeout", "reconnect_timeout");
   ("reconnect-limit", "reconnect_limit");
   ("reconnect-interval", "reconnect_interval");
   ("reconnect-interval-min", "reconnect_interval_min");
   ("reconnect-interval-max", "reconnect_interval_max");
   ("reconnect-urls-replace", "reconnect_urls_replace");
   ("reconnect-urls", "reconnect_urls");
   ("sasl-mechanism", "sasl_mechanism");
   ("sasl-mechanism", "sasl-mechanisms");
   ("sasl-mechanism", "sasl_mechanisms");
   ("sasl-service", "sasl_service");
   ("sasl-min-ssf", "sasl_min_ssf");
   ("sasl-max-ssf", "sasl_max_ssf");
   ("tcp-nodelay", "tcp_nodelay");
   ("max-channels", "max_channels");
   ("max-frame-size", "max_frame_size");
   ("ssl-cert-name", "ssl_cert_name");
   ("x-reconnect-on-limit-exceeded", "x_reconnect_on_limit_exceeded")].

(** The connection a run of [connect] ends with. *)
Definition connection_of (r : ConnectResult) : ConnectionImpl :=
  match r with
  | Connected c _ | Failed _ c _ | Retrying _ c _ => c
  end.

(** Scenario data: a network on which one URL alone answers. *)
Definition net_only (url : string) (hosts : list string) (reset : ResetOutcome)
  : Transport :=
  fun u => if bool_decide (u = url) then Opens hosts reset else OpenFails.

End ClientMore.

(** ** Further definitions for the broker *)

Module BrokerMore.
Import Broker.

Section Tasks.
Context {R : Type} {rfc : RateFlowcontrol R} {env : Collaborators R}.
Local Open Scope session_scope.

(** [ScheduledCreditTask::fire]: the timer asks the connection to run
    [sendCredit] on the I/O thread. *)
Definition ScheduledCreditTask_fire : M R unit :=
  getConnection ;;; emit RequestIOProcessing.

(** [ScheduledCreditTask::sendCredit], for a task of period [d]; [now]
    is the reading of [AbsTime::now()] in [processSendCredit]. *)
Definition ScheduledCreditTask_sendCredit (d : Duration) (now : AbsTime) : M R unit :=
  let* credit := processSendCredit 0 now in
  when (negb credit)
    (QPID_LOG (Warning "Reschedule sending credit") ;;;
     emit (TimerAdd d)).

(** The queue of pending execution.sync commands is blocked: it is
    empty, or an id that is before its head in the order of the
    sequence is incomplete. *)
Definition syncs_blocked (s : SessionState R) : Prop :=
  match pendingExecutionSyncs s with
  | [] => True
  | q :: _ => exists c, c ∈ receiverIncomplete s /\ seq_lt c q = true
  end.

End Tasks.

(** *** A second scenario

    A flow control that counts the messages received against its rate
    and gives credit back only through the timer; the collaborators of
    the first scenario. *)
Record Meter := mkMeter { meter_rate : Z; meter_received : Z }.

Global Instance Meter_flowcontrol : RateFlowcontrol Meter := {|
  getRate := meter_rate;
  flowStopped b := meter_rate b <=? meter_received b;
  receivedMessage now msgs b := (0, mkMeter (meter_rate b) (meter_received b + msgs));
  sentCredit now credit b := mkMeter (meter_rate b) (meter_received b - credit)
|}.

Global Instance metered : Collaborators Meter := {|
  adapter m := ret (mkResult true None);
  semanticState_handle m := ret false;
  record_deliver msg id maxFrameSize :=
    bind (emit (Delivered id maxFrameSize))
      (fun _ => modify (set_senderCommandPoint (mkPoint (next id) 0)));
  TIME_SEC := 1000000000;
  TIME_MSEC := 1000000
|}.

Definition metering (current : SequenceNumber) (incomplete : SequenceSet)
  (flowcontrol : Meter) : SessionState Meter :=
  mkSession current incomplete ∅ (mkPoint 0 0) (Some (mkHandler 1 65535)) None None
    (Some flowcontrol) [] None true [] ∅ ∅ ∅ [] [] [].

End BrokerMore.

(** * Properties of the client reconnect engine *)

Section ClientFacts.
Import Client.

Variable TIME_SEC : Z.
Variable parseUrl : string -> option (string * string).

(** ** The URL list *)

Lemma merge_NoDup value (l : list string) : NoDup l -> NoDup (merge value l).
Proof.
  intros Hl. unfold merge. case_decide; [done|].
  apply NoDup_app. repeat split; [done| |apply NoDup_singleton].
  intros x Hx Hin. apply list_elem_of_singleton in Hin. by subst.
Qed.

Lemma merge_list_NoDup from (to : list string) :
  NoDup to -> NoDup (merge_list from to).
Proof.
  revert to. induction from as [|v from IH]; intros to Hto; [done|].
  apply IH. by apply merge_NoDup.
Qed.

Lemma merge_prefix value (l : list string) : l `prefix_of` merge value l.
Proof. unfold merge. case_decide; [done|]. by apply prefix_app_r. Qed.

Lemma merge_list_prefix from (to : list string) : to `prefix_of` merge_list from to.
Proof.
  revert to. induction from as [|v from IH]; intros to; [done|].
  etrans; [apply merge_prefix|apply IH].
Qed.

Lemma merge_elem_of value (l : list string) x :
  x ∈ merge value l <-> x ∈ l \/ x = value.
Proof.
  unfold merge. case_decide.
  - split; [by left|]. intros [? | ->]; done.
  - rewrite elem_of_app, list_elem_of_singleton. done.
Qed.

Lemma merge_list_elem_of from (to : list string) x :
  x ∈ merge_list from to <-> x ∈ to \/ x ∈ from.
Proof.
  revert to. induction from as [|v from IH]; intros to; simpl.
  - split; [by left|]. intros [?|H]; [done|]. by apply elem_of_nil in H.
  - change (x ∈ merge_list from (merge v to) <-> x ∈ to \/ x ∈ v :: from).
    rewrite IH, merge_elem_of, elem_of_cons. tauto.
Qed.

Lemma merge_present value (l : list string) : value ∈ l -> merge value l = l.
Proof. intros H. unfold merge. by case_decide. Qed.

Lemma prefix_head (l k : list string) x : l `prefix_of` k -> head l = Some x -> head k = Some x.
Proof. intros [t ->] H. destruct l; [done|]. done. Qed.

(** [mergeUrls] keeps a duplicate-free list duplicate-free, keeps its
    first entry, and only appends: the list before is a prefix of the
    list after. *)
Lemma mergeUrls_keeps more c :
  urls c `prefix_of` urls (mergeUrls more c) /\
  (NoDup (urls c) -> NoDup (urls (mergeUrls more c))) /\
  (forall x, head (urls c) = Some x -> head (urls (mergeUrls more c)) = Some x).
Proof.
  simpl. split; [apply merge_list_prefix|]. split.
  - apply merge_list_NoDup.
  - intros x. apply prefix_head, merge_list_prefix.
Qed.

(** The constructor puts the caller's URL first, whatever the options. *)
Lemma new_ConnectionImpl_head url options c :
  new_ConnectionImpl url options = inr c -> head (urls c) = Some url.
Proof.
  unfold new_ConnectionImpl. destruct (setOptions options initial); [done|].
  intros [= <-]. done.
Qed.

Lemma setOption_NoDup name value c c' :
  setOption name value c = inr c' -> NoDup (urls c) -> NoDup (urls c').
Proof.
  unfold setOption, assign.
  repeat (case_match; simplify_eq; simpl; try done);
    intros; simplify_eq; simpl;
    try apply merge_NoDup; try apply merge_list_NoDup; try done; try apply NoDup_nil_2.
Qed.

Lemma setOptions_NoDup options c c' :
  setOptions options c = inr c' -> NoDup (urls c) -> NoDup (urls c').
Proof.
  revert c. induction options as [|[name value] rest IH]; intros c; simpl.
  - by intros [= <-].
  - destruct (setOption name value c) eqn:E; [done|].
    intros H1 H2. eapply IH; [done|]. by eapply setOption_NoDup.
Qed.

(** The list the constructor builds has no duplicates exactly when the
    caller's URL is not among the URLs the options merged. *)
Lemma new_ConnectionImpl_NoDup url options c :
  new_ConnectionImpl url options = inr c ->
  NoDup (urls c) <-> url ∉ tail (urls c).
Proof.
  unfold new_ConnectionImpl. destruct (setOptions options initial) as [|c0] eqn:E; [done|].
  intros [= <-]. simpl. rewrite NoDup_cons.
  split; [by intros [? _]|]. intros H. split; [done|].
  eapply setOptions_NoDup; [done|]. apply NoDup_nil_2.
Qed.

(** C6: the constructor called with a URL that is also among its
    reconnect-urls builds a URL list that holds that URL twice:
    [setOptions] merges the option first and [urls.insert(urls.begin(), url)]
    then adds the caller's URL without the check [merge] makes. *)
Theorem C6_constructor_duplicates_url :
  exists c,
    new_ConnectionImpl "amqp://a" [("reconnect-urls", VarList ["amqp://a"; "amqp://b"])]
      = inr c /\
    urls c = ["amqp://a"; "amqp://a"; "amqp://b"] /\
    ~ NoDup (urls c).
Proof.
  eexists. split; [vm_compute; reflexivity|]. split; [reflexivity|].
  simpl. rewrite NoDup_cons. intros [H _]. apply H. left.
Qed.

(** ** The reconnect loop *)

Lemma policy_fields c c' :
  policy c' = policy c ->
  reconnect c' = reconnect c /\ timeout c' = timeout c /\ limit c' = limit c /\
  minReconnectInterval c' = minReconnectInterval c /\
  maxReconnectInterval c' = maxReconnectInterval c /\ retries c' = retries c.
Proof. unfold policy. intros [= -> -> -> -> -> -> _]. done. Qed.

Lemma tryConnect_from_policy net todo c :
  policy (conn_of (tryConnect_from parseUrl net todo c)) = policy c.
Proof.
  revert c. induction todo as [|u todo IH]; intros c; simpl; [done|].
  destruct (parseUrl u) as [[user pass]|]; [|done].
  destruct (net u) as [|hosts reset].
  - rewrite IH. repeat case_bool_decide; done.
  - destruct reset; simpl; try (repeat case_bool_decide; done).
    destruct (reconnectOnLimitExceeded _) eqn:E; simpl;
      repeat case_bool_decide; done.
Qed.

Lemma tryConnect_policy net c :
  policy (conn_of (tryConnect parseUrl net c)) = policy c.
Proof. apply tryConnect_from_policy. Qed.

Lemma wrap64_small z : - 2 ^ 63 <= z < 2 ^ 63 -> wrap64 z = z.
Proof. intros H. unfold wrap64. rewrite Z.mod_small; lia. Qed.


Lemma connect_from_limit started script :
  forall i c slept what c2 slept2,
    connect_from TIME_SEC parseUrl started script i c slept
      = Failed (TransportFailure what) c2 slept2 ->
    what = "Failed to connect within reconnect limit" ->
    0 <= limit c /\
    Z.of_nat (length slept2) = Z.of_nat (length slept) + Z.max 0 (limit c - retries c).
Proof.
  induction script as [|[net now] rest IH]; intros i c slept what c2 slept2; simpl; [done|].
  pose proof (tryConnect_policy net c) as Hp.
  destruct (tryConnect parseUrl net c) as [c1|c1|e c1] eqn:Etry; simpl in Hp;
    apply policy_fields in Hp as (Hr & Ht & Hl & Hmi & Hma & Hre); [done| |].
  - destruct (negb (reconnect c1)).
    { intros [= <- <- <-] [=]. }
    destruct (0 <=? limit c1) eqn:E0; simpl.
    + destruct (limit c1 <=? retries c1) eqn:E1.
      * intros [= <- <- <-] _. lia.
      * destruct (expired _ _ _ _); [intros [= <- <- <-] [=]|].
        intros H Hw. apply IH in H as [H0 H]; [|done]. simpl in *.
        rewrite length_app in H. simpl in H. lia.
    + destruct (expired _ _ _ _); [intros [= <- <- <-] [=]|].
      intros H Hw. apply IH in H as [H0 H]; [|done]. lia.
  - intros [= -> <- <-] ->.
    exfalso. clear -Etry. unfold tryConnect in Etry.
    revert Etry. generalize (urls c) as todo. generalize c as d.
    intros d todo; revert d.
    induction todo as [|u todo IHt]; intros d; simpl; [done|].
    destruct (parseUrl u) as [[user pass]|]; [|done].
    destruct (net u) as [|hosts reset]; [apply IHt|].
    destruct reset; simpl; try done.
    destruct (reconnectOnLimitExceeded _); done.
Qed.


(** C10: a [connect] that succeeds leaves the retry counter at zero, so
    a later [connect] gives up on the reconnect limit only after as many
    sleeps of its own as the limit, at the failed attempt after them,
    whatever failures came before the success. *)
Theorem C10_retries_reset_on_success started script c c' slept :
  connect TIME_SEC parseUrl started script c = Connected c' slept ->
  retries c' = 0 /\
  forall started' script' c'' slept',
    connect TIME_SEC parseUrl started' script' c'
      = Failed (TransportFailure "Failed to connect within reconnect limit") c'' slept' ->
    Z.of_nat (length slept') = limit c'.
Proof.
  unfold connect. intros H.
  assert (retries c' = 0) as Hret.
  { revert H. generalize (minReconnectInterval c) as i. generalize (@nil Z) as sl.
    revert c. induction script as [|[net now] rest IH]; intros c sl i; simpl; [done|].
    destruct (tryConnect parseUrl net c) as [c1|c1|e c1]; [by intros [= <- _]| |done].
    destruct (negb (reconnect c1)); [done|].
    destruct ((0 <=? limit c1) && (limit c1 <=? retries c1)); [done|].
    destruct (expired _ _ _ _); [done|]. apply IH. }
  split; [done|].
  intros started' script' c'' slept' H'.
  apply connect_from_limit in H' as [H0 H']; [|done].
  simpl in H'. rewrite Hret in H'. lia.
Qed.

End ClientFacts.

Section ClientScenarios.
Import Client.


(** A limit of two: an outage of two failed attempts is recovered, and
    so is a second one after it. *)
Lemma C10_retries_reset_on_success_witness :
  exists c',
    connect 1000000000 plain_url 0
      [(net_down, 0); (net_down, 3); (net_up ["amqp://b"], 9)]
      (with_policy true (-1) 2 3 60 "amqp://a") = Connected c' [3; 6] /\
    retries c' = 0 /\
    urls c' = ["amqp://a"; "amqp://b"] /\
    exists c2,
      connect 1000000000 plain_url 20
        [(net_down, 20); (net_down, 23); (net_up ["amqp://a"], 29)] c'
      = Connected c2 [3; 6].
Proof.
  eexists. split; [vm_compute; reflexivity|].
  split.
  - eapply (C10_retries_reset_on_success 1000000000 plain_url 0
              [(net_down, 0); (net_down, 3); (net_up ["amqp://b"], 9)]
              (with_policy true (-1) 2 3 60 "amqp://a")).
    vm_compute. reflexivity.
  - split; [reflexivity|]. eexists. vm_compute. reflexivity.
Defined.

End ClientScenarios.

(** * Properties of the broker session *)

Section BrokerFacts.
Import Broker.
Context {R : Type} {rfc : RateFlowcontrol R} {env : Collaborators R}.
Local Open Scope session_scope.

Ltac run :=
  unfold sendAcceptAndCompletion, sendCompletion, getProxy, getClusterOrderProxy,
    getConnection, receiverGetIncomplete_front, receiverCompleted, QPID_LOG, emit,
    when, bind, ret, throw, get, modify in *;
  simpl in *.

(** ** Dispatch of inbound frames *)

(** C8: [handleIn] passes a frame that is no method frame (a header or
    a content frame) and a content-bearing method frame to
    [handleContent], passes a method frame that is not content-bearing
    and carries both begin-of-frameset and end-of-frameset to
    [handleCommand], and fails on every other frame, a command segment
    of several frames that is not content-bearing, with the exception
    "Cannot handle multi-frame command segments yet". *)
Theorem C8_handleIn_dispatch (frame : AMQFrame) (now : AbsTime) (s : SessionState R) :
  (getMethod frame = None ->
     handleIn frame now s = handleContent frame (receiverCurrent s) now s) /\
  (forall m, getMethod frame = Some m -> isContentBearing m = true ->
     handleIn frame now s = handleContent frame (receiverCurrent s) now s) /\
  (forall m, getMethod frame = Some m -> isContentBearing m = false ->
     getBof frame = true -> getEof frame = true ->
     handleIn frame now s = handleCommand m (receiverCurrent s) s) /\
  (forall m, getMethod frame = Some m -> isContentBearing m = false ->
     getBof frame = false \/ getEof frame = false ->
     handleIn frame now s
     = Throw (InternalErrorException "Cannot handle multi-frame command segments yet") s).
Proof.
  unfold handleIn, bind, get. repeat split.
  - by intros ->.
  - by intros m -> ->.
  - by intros m -> -> -> ->.
  - intros m -> -> [-> | ->]; [done|]. by destruct (getBof frame).
Qed.

(** ** The order of sequence numbers *)

Lemma distance_window cur x y :
  behind cur x < 2 ^ 31 -> behind cur y < 2 ^ 31 ->
  distance x y = behind cur y - behind cur x.
Proof.
  unfold distance, behind. intros Hx Hy.
  pose proof (Z.mod_pos_bound (cur - x) (2 ^ 32) ltac:(lia)) as Bx.
  pose proof (Z.mod_pos_bound (cur - y) (2 ^ 32) ltac:(lia)) as By.
  pose proof (Z.div_mod (cur - x) (2 ^ 32) ltac:(lia)) as Dx.
  pose proof (Z.div_mod (cur - y) (2 ^ 32) ltac:(lia)) as Dy.
  set (bx := (cur - x) mod 2 ^ 32) in *. set (by_ := (cur - y) mod 2 ^ 32) in *.
  set (qx := (cur - x) / 2 ^ 32) in *. set (qy := (cur - y) / 2 ^ 32) in *.
  assert (x - y + 2 ^ 31 = (by_ - bx + 2 ^ 31) + (qy - qx) * 2 ^ 32) as -> by lia.
  rewrite Z.mod_add by lia. rewrite Z.mod_small by lia. lia.
Qed.

(** Of two ids of a window, the one before the other is the one
    further behind. *)
Lemma seq_lt_window cur x y :
  behind cur x < 2 ^ 31 -> behind cur y < 2 ^ 31 ->
  seq_lt x y = true <-> behind cur y < behind cur x.
Proof.
  intros Hx Hy. unfold seq_lt. rewrite (distance_window cur) by done.
  rewrite Z.ltb_lt. lia.
Qed.

Lemma behind_inj cur x y :
  0 <= x < 2 ^ 32 -> 0 <= y < 2 ^ 32 -> behind cur x = behind cur y -> x = y.
Proof.
  unfold behind. intros Hx Hy H.
  pose proof (Z.div_mod (cur - x) (2 ^ 32) ltac:(lia)) as Dx.
  pose proof (Z.div_mod (cur - y) (2 ^ 32) ltac:(lia)) as Dy.
  rewrite H in Dx. lia.
Qed.


Lemma window_subseteq cur (X Y : gset Z) : Y ⊆ X -> window cur X -> window cur Y.
Proof. intros Hsub Hw x Hx. apply Hw, Hsub, Hx. Qed.


(** ** The front of a sequence set *)

Lemma foldr_earlier_in x l : foldr earlier x l ∈ x :: l.
Proof.
  induction l as [|a l IH]; simpl; [left|].
  unfold earlier at 1. destruct (seq_lt a _); [right; left|].
  apply elem_of_cons in IH as [-> | IH]; [left|]. right. by right.
Qed.

Lemma front_None (X : gset Z) : front X = None <-> X = ∅.
Proof.
  unfold front. destruct (elements X) as [|x l] eqn:E.
  - apply elements_empty_inv in E. apply leibniz_equiv in E. by subst X.
  - split; [done|]. intros ->. by rewrite elements_empty in E.
Qed.

Lemma front_in (X : gset Z) lo : front X = Some lo -> lo ∈ X.
Proof.
  unfold front. destruct (elements X) as [|x l] eqn:E; [done|].
  intros [= <-]. apply elem_of_elements. rewrite E. apply foldr_earlier_in.
Qed.

Lemma foldr_earlier_window cur x l :
  (forall y, y ∈ x :: l -> behind cur y < 2 ^ 31) ->
  forall y, y ∈ x :: l -> behind cur y <= behind cur (foldr earlier x l).
Proof.
  induction l as [|a l IH]; simpl; intros Hw y Hy.
  - apply list_elem_of_singleton in Hy. subst. lia.
  - assert (forall y, y ∈ x :: l -> behind cur y < 2 ^ 31) as Hw'.
    { intros z Hz. apply Hw. apply elem_of_cons in Hz as [-> | Hz]; [left|]. right. by right. }
    specialize (IH Hw').
    pose proof (foldr_earlier_in x l) as Hin.
    assert (behind cur (foldr earlier x l) < 2 ^ 31) as Hf by (by apply Hw').
    assert (behind cur a < 2 ^ 31) as Ha by (apply Hw; right; left).
    unfold earlier at 1. destruct (seq_lt a (foldr earlier x l)) eqn:E.
    + apply (seq_lt_window cur) in E; [|done..].
      apply elem_of_cons in Hy as [-> | Hy].
      * specialize (IH x ltac:(left)). lia.
      * apply elem_of_cons in Hy as [-> | Hy]; [lia|].
        specialize (IH y ltac:(by right)). lia.
    + assert (~ behind cur (foldr earlier x l) < behind cur a) as E'.
      { intros H. apply (seq_lt_window cur) in H; [|done..]. congruence. }
      apply elem_of_cons in Hy as [-> | Hy]; [by apply IH; left|].
      apply elem_of_cons in Hy as [-> | Hy]; [lia|]. apply IH. by right.
Qed.

(** In a window the front is the id furthest behind. *)
Lemma front_window cur (X : gset Z) lo :
  window cur X -> front X = Some lo ->
  lo ∈ X /\ forall c, c ∈ X -> behind cur c <= behind cur lo.
Proof.
  intros Hw Hf. split; [by apply front_in|].
  unfold front in Hf. destruct (elements X) as [|x l] eqn:E; [done|].
  injection Hf as <-. intros c Hc. apply foldr_earlier_window.
  - intros y Hy. rewrite <- E in Hy. apply elem_of_elements in Hy. by apply Hw.
  - rewrite <- E. by apply elem_of_elements.
Qed.


(** ** Command dispatch *)

Lemma receiverCompleted_fields id (s : SessionState R) :
  let s' := state_of (receiverCompleted id s) in
  receiverCompleted id s = Ok tt s' /\
  receiverIncomplete s' = receiverIncomplete s ∖ {[id]} /\
  out s' = out s /\ accepted s' = accepted s /\ handler s' = handler s /\
  currentCommandComplete s' = currentCommandComplete s /\
  pendingExecutionSyncs s' = pendingExecutionSyncs s.
Proof.
  run. split; [done|]. case_decide; simpl; repeat split; try done.
  apply set_eq. intros x. rewrite elem_of_difference, elem_of_singleton.
  split; [|tauto]. intros Hx. split; [done|]. by intros ->.
Qed.

Lemma sendAcceptAndCompletion_attached (s : SessionState R) :
  isAttached s = true ->
  exists s',
    sendAcceptAndCompletion s = Ok tt s' /\
    out s' = out s ++ accept_and_completion s /\
    accepted s' = ∅ /\
    receiverIncomplete s' = receiverIncomplete s /\
    receiverUnknownCompleted s' = receiverUnknownCompleted s /\
    pendingExecutionSyncs s' = pendingExecutionSyncs s /\
    currentCommandComplete s' = currentCommandComplete s /\
    handler s' = handler s.
Proof.
  intros Hatt. unfold accept_and_completion. run.
  case_bool_decide as Hacc; simpl.
  - rewrite Hatt. eexists. split; [done|]. simpl. by rewrite Hacc.
  - rewrite Hatt. unfold isAttached in *. simpl. rewrite Hatt.
    eexists. split; [done|]. simpl. by rewrite <- app_assoc.
Qed.

(** C2: the steps of [handleCommand], for an invocation that returns
    and leaves the session attached.  The invoker runs with
    [currentCommandComplete] set; the command is receiver-completed
    exactly when the flag is still set after it; an invocation that was
    not handled then raises NotImplemented, with nothing sent; one that
    was handled sends its result, if it has one, and then, when the
    method is sync and the flag is set, the batched accept and
    completion, which carry the state after the completion of the
    command. *)
Theorem C2_handleCommand_steps method id (s : SessionState R) invocation s2 :
  invoke method (set_currentCommandComplete true s) = Ok invocation s2 ->
  isAttached s2 = true ->
  let s3 := if currentCommandComplete s2 then state_of (receiverCompleted id s2) else s2 in
  receiverIncomplete s3
    = (if currentCommandComplete s2 then receiverIncomplete s2 ∖ {[id]}
       else receiverIncomplete s2) /\
  (wasHandled invocation = false ->
     handleCommand method id s
     = Throw (NotImplementedException ("Not implemented: " +:+ method_text method)) s3 /\
     out s3 = out s2) /\
  (wasHandled invocation = true ->
     exists s',
       handleCommand method id s = Ok tt s' /\
       receiverIncomplete s' = receiverIncomplete s3 /\
       out s' = out s2
                ++ match getResult invocation with
                   | Some value => [ExecutionResult id value]
                   | None => []
                   end
                ++ (if isSync method && currentCommandComplete s2
                    then accept_and_completion s3 else [])).
Proof.
  intros Hinv Hatt s3.
  destruct (receiverCompleted_fields id s2) as (Hrc & Hinc & Hout & Hacc & Hh & Hccc & Hpes).
  assert (isAttached s3 = true) as Hatt3.
  { subst s3. destruct (currentCommandComplete s2); [|done].
    unfold isAttached in *. by rewrite Hh. }
  assert (out s3 = out s2) as Hout3.
  { subst s3. by destruct (currentCommandComplete s2). }
  assert (currentCommandComplete s3 = currentCommandComplete s2) as Hccc3.
  { subst s3. destruct (currentCommandComplete s2) eqn:E; [by rewrite Hccc|done]. }
  split; [subst s3; by destruct (currentCommandComplete s2)|].
  assert (
    handleCommand method id s =
    ((if negb (wasHandled invocation) then
        throw (NotImplementedException ("Not implemented: " +:+ method_text method))
      else match getResult invocation with
           | Some value => getProxy ;;; emit (ExecutionResult id value)
           | None => ret tt
           end) ;;;
     let* complete := get currentCommandComplete in
     when (isSync method && complete) sendAcceptAndCompletion) s3) as Hstep.
  { unfold handleCommand.
    unfold bind at 1. unfold modify at 1. unfold bind at 1. rewrite Hinv.
    unfold bind at 1. unfold bind at 1. unfold get at 1. unfold when at 1.
    subst s3. destruct (currentCommandComplete s2); [by rewrite Hrc|done]. }
  rewrite Hstep. clear Hstep.
  split.
  - intros ->. simpl. done.
  - intros ->. simpl.
    destruct (getResult invocation) as [value|]; run.
    + rewrite Hatt3. simpl. rewrite Hccc3.
      destruct (isSync method && currentCommandComplete s2) eqn:Esync.
      * edestruct (sendAcceptAndCompletion_attached
                     (set_out (out s3 ++ [ExecutionResult id value]) s3))
          as (s' & Hs' & Ho & _ & Hi & _); [done|].
        run. rewrite Hs'. eexists. split; [done|]. split; [done|].
        rewrite Ho. simpl. rewrite Hout3, <- app_assoc. done.
      * eexists. split; [done|]. split; [done|]. simpl.
        by rewrite Hout3.
    + rewrite Hccc3.
      destruct (isSync method && currentCommandComplete s2) eqn:Esync.
      * edestruct (sendAcceptAndCompletion_attached s3)
          as (s' & Hs' & Ho & _ & Hi & _); [done|].
        run. rewrite Hs'. eexists. split; [done|]. split; [done|].
        rewrite Ho, Hout3. done.
      * eexists. split; [done|]. split; [done|]. by rewrite Hout3, app_nil_r.
Qed.

(** ** The ordering of execution.sync *)

Lemma receiverCompleted_completed id (s : SessionState R) :
  let s' := state_of (receiverCompleted id s) in
  receiverUnknownCompleted s ⊆ receiverUnknownCompleted s' /\
  (id ∈ receiverIncomplete s -> id ∈ receiverUnknownCompleted s').
Proof.
  run. case_decide; simpl; split; try done.
  - apply union_subseteq_r.
  - intros _. apply elem_of_union_l. by apply elem_of_singleton.
Qed.

Lemma sendAcceptAndCompletion_incomplete (s : SessionState R) :
  receiverIncomplete (state_of (sendAcceptAndCompletion s)) = receiverIncomplete s.
Proof.
  run. case_bool_decide; simpl.
  - destruct (isAttached s); done.
  - destruct (isAttached s) eqn:E; simpl; [|done].
    unfold isAttached in *. simpl. by rewrite E.
Qed.

Lemma sendAcceptAndCompletion_Ok (s s' : SessionState R) :
  sendAcceptAndCompletion s = Ok tt s' -> isAttached s = true.
Proof.
  run. case_bool_decide; simpl.
  - by destruct (isAttached s).
  - destruct (isAttached s) eqn:E; simpl; done.
Qed.

Lemma completeExecutionSyncs_spec cur queue :
  forall called (s : SessionState R) r s',
    completeExecutionSyncs queue called s = Ok r s' ->
    exists flushed rest,
      queue = flushed ++ rest /\
      receiverIncomplete s' = receiverIncomplete s ∖ list_to_set flushed /\
      (forall q, q ∈ flushed -> q ∈ receiverIncomplete s ->
         q ∈ receiverUnknownCompleted s' /\
         (window cur (receiverIncomplete s) ->
          forall c, c ∈ receiverIncomplete s' -> seq_lt q c = true)) /\
      receiverUnknownCompleted s ⊆ receiverUnknownCompleted s' /\
      r = called || negb (bool_decide (flushed = [])) /\
      out s' = out s /\ handler s' = handler s /\ accepted s' = accepted s /\
      (flushed = [] -> s' = s) /\
      (flushed <> [] -> pendingExecutionSyncs s' = rest).
Proof.
  assert (forall X : gset Z, X = X ∖ list_to_set []) as Hempty.
  { intros X. apply set_eq. intros x. rewrite elem_of_difference. simpl.
    split; [|tauto]. intros Hx. split; [done|]. apply not_elem_of_empty. }
  induction queue as [|id queue IH]; intros called s r s'; simpl.
  - intros [= <- <-]. exists [], [].
    split_and!; try done.
    + intros q Hq. by apply elem_of_nil in Hq.
    + simpl. by rewrite orb_false_r.
  - unfold bind at 1. unfold receiverGetIncomplete_front.
    destruct (front (receiverIncomplete s)) as [lo|] eqn:Efront; [|done].
    destruct (seq_lt lo id) eqn:Ele; simpl.
    + intros [= <- <-]. exists [], (id :: queue).
      split_and!; try done.
      * intros q Hq. by apply elem_of_nil in Hq.
      * simpl. by rewrite orb_false_r.
    + unfold bind at 1. unfold modify at 1. unfold bind at 1.
      set (s0 := set_pendingExecutionSyncs queue s).
      destruct (receiverCompleted_fields id s0) as (Hrc & Hinc & Hout & Hacc & Hh & _ & Hpes).
      destruct (receiverCompleted_completed id s0) as (Hsub & Hadd).
      rewrite Hrc. set (s1 := state_of (receiverCompleted id s0)) in *.
      intros Hloop. apply IH in Hloop
        as (flushed & rest & -> & Hinc' & Hq' & Hsub' & -> & Hout' & Hh' & Hacc' & Hnil & Hcons).
      exists (id :: flushed), rest. simpl in *.
      assert (receiverIncomplete s' = receiverIncomplete s ∖ ({[id]} ∪ list_to_set flushed))
        as Hincs.
      { rewrite Hinc', Hinc. apply set_eq. intros x.
        rewrite !elem_of_difference, elem_of_union. tauto. }
      split_and!; try done; try congruence.
      * intros q Hq Hqin. split.
        -- destruct (decide (q = id)) as [-> | Hne].
           ++ apply Hsub', Hadd. done.
           ++ apply elem_of_cons in Hq as [? | Hq]; [done|].
              apply Hq'; [done|]. rewrite Hinc. apply elem_of_difference.
              split; [done|]. by rewrite elem_of_singleton.
        -- intros Hw c Hc.
           destruct (decide (q = id)) as [-> | Hne].
           ++ rewrite Hincs in Hc. apply elem_of_difference in Hc as [Hc Hnot].
              assert (c <> id)
                by (intros ->; apply Hnot, elem_of_union_l; by apply elem_of_singleton).
              destruct (front_window cur _ lo Hw Efront) as [Hlo Hmax].
              destruct (Hw c Hc) as [Uc Bc]. destruct (Hw id Hqin) as [Uid Bid].
              destruct (Hw lo Hlo) as [Ulo Blo].
              pose proof (Hmax c Hc) as Hc_lo. pose proof (Hmax id Hqin) as Hid_lo.
              assert (~ behind cur id < behind cur lo) as Hlo_id.
              { intros Hlt. apply (seq_lt_window cur) in Hlt; [|done..]. congruence. }
              assert (behind cur c <> behind cur id)
                by (intros Heq; by apply behind_inj in Heq).
              apply (seq_lt_window cur); [done..|]. lia.
           ++ apply elem_of_cons in Hq as [? | Hq]; [done|].
              eapply Hq'; [done| | |done].
              ** rewrite Hinc. apply elem_of_difference.
                 split; [done|]. by rewrite elem_of_singleton.
              ** eapply window_subseteq; [|exact Hw]. rewrite Hinc.
                 intros x Hx. by apply elem_of_difference in Hx as [Hx _].
      * etrans; [|apply Hsub']. done.
      * by rewrite orb_true_r.
      * intros _. destruct (decide (flushed = [])) as [-> | Hne].
        -- rewrite (Hnil eq_refl). simpl. by rewrite Hpes.
        -- by apply Hcons.
Qed.

Lemma completeRcvMsg_unfold msg (s : SessionState R) :
  completeRcvMsg msg s =
  let s_a := state_of (receiverCompleted (getCommandId msg) s) in
  let s_b := if requiresAccept msg
             then set_accepted ({[getCommandId msg]} ∪ accepted s_a) s_a else s_a in
  match completeExecutionSyncs (pendingExecutionSyncs s_b) false s_b with
  | Throw e s_c => Throw e s_c
  | Ok r s_c =>
      match frames_getMethod (getFrames msg) with
      | None => Throw (NullDereference "getMethod()") s_c
      | Some method =>
          if isSync method then sendAcceptAndCompletion s_c
          else if r then sendCompletion s_c else Ok tt s_c
      end
  end.
Proof.
  unfold completeRcvMsg.
  destruct (receiverCompleted_fields (getCommandId msg) s) as (Hrc & _).
  unfold bind at 1. rewrite Hrc. unfold bind at 1.
  destruct (requiresAccept msg); simpl.
  - unfold bind at 1. unfold get at 1. unfold bind at 1. simpl.
    destruct (completeExecutionSyncs _ _ _) as [r s_c|e s_c]; [|done].
    destruct (frames_getMethod _) as [m|]; [|done].
    destruct (isSync m); [done|]. by destruct r.
  - unfold bind at 1. unfold get at 1. unfold bind at 1. simpl.
    destruct (completeExecutionSyncs _ _ _) as [r s_c|e s_c]; [|done].
    destruct (frames_getMethod _) as [m|]; [|done].
    destruct (isSync m); [done|]. by destruct r.
Qed.



(** ** Producer flow control *)

(** C7: a frame that opens a frameset while the flow is stopped.  Once
    the frame has gone to the message builder, [processSendCredit] logs
    the warning, sends message.stop with the empty destination and
    returns true; [handleContent] ends there.  The flow control and the
    credit counter of the management object are as they were: no credit
    is granted, none is sent and no grant is scheduled. *)
Theorem C7_flow_stopped_violation frame id now (s s1 : SessionState R) rf :
  getBof frame = true -> getBos frame = true ->
  handleContent_message frame id s = Ok tt s1 ->
  rateFlowcontrol s1 = Some rf -> flowStopped rf = true -> isAttached s1 = true ->
  let s' := set_out (out s1 ++ [MessageStop ""])
              (set_log (log s1 ++ [Warning "producer throttling violation"]) s1) in
  (forall msgs, 0 < msgs -> processSendCredit msgs now s1 = Ok true s') /\
  handleContent frame id now s = Ok tt s' /\
  rateFlowcontrol s' = Some rf /\
  mgmtObject s' = mgmtObject s1 /\
  flowControlTimer s' = flowControlTimer s1.
Proof.
  intros Hbof Hbos Hmsg Hrf Hstop Hatt s'.
  assert (forall msgs, 0 < msgs -> processSendCredit msgs now s1 = Ok true s') as Hcredit.
  { intros msgs Hmsgs. unfold processSendCredit. run. rewrite Hrf, Hstop.
    assert ((0 <? msgs) = true) as -> by lia. simpl.
    unfold isAttached in *. simpl. by rewrite Hatt. }
  split; [done|]. split; [|done].
  unfold handleContent, handleContent_credit.
  unfold bind at 1. rewrite Hmsg. unfold bind at 1. unfold get at 1. rewrite Hrf.
  rewrite Hbof, Hbos. simpl. unfold bind at 1. by rewrite Hcredit.
Qed.

(** ** Outbound delivery *)

(** C9: [deliver] on an attached session.  With a send offset that is
    not zero it fails on its first assertion and sends nothing.  When it
    returns, the offset was zero, the record was delivered at the
    command id of the send point, the send point is that id plus one at
    offset zero, and the execution.sync, if asked for, is the last
    command sent.  It does return when the offset is zero and the
    delivery of the record moves the send point by one command, as the
    specification has it. *)
Theorem C9_deliver_advances_send_point msg sync (s : SessionState R) h :
  handler s = Some h ->
  let id := command (senderCommandPoint s) in
  (offset (senderCommandPoint s) <> 0 ->
     deliver msg sync s = Throw (AssertFailure "senderGetCommandPoint().offset == 0") s) /\
  (forall s', deliver msg sync s = Ok tt s' ->
     offset (senderCommandPoint s) = 0 /\
     senderCommandPoint s' = mkPoint (next id) 0 /\
     exists s1,
       record_deliver msg id (getFrameMax h) s = Ok tt s1 /\
       out s' = out s1 ++ (if sync then [ExecutionSync] else [])) /\
  (offset (senderCommandPoint s) = 0 ->
   forall s1,
     record_deliver msg id (getFrameMax h) s = Ok tt s1 ->
     senderCommandPoint s1 = mkPoint (next id) 0 -> isAttached s1 = true ->
     exists s', deliver msg sync s = Ok tt s').
Proof.
  intros Hh id. unfold deliver. run. rewrite Hh.
  assert (isAttached s = true) as Hatt by (unfold isAttached; by rewrite Hh).
  repeat split.
  - intros Hoff. destruct (offset (senderCommandPoint s) =? 0) eqn:E; [lia|done].
  - destruct (offset (senderCommandPoint s) =? 0) eqn:E; [lia|done].
  - revert H. destruct (offset (senderCommandPoint s) =? 0) eqn:E; [|done]. simpl.
    rewrite Hatt. fold id.
    destruct (record_deliver msg id (getFrameMax h) s) as [[] s1|e s1]; [|done].
    case_bool_decide as Hp; [|done]. simpl.
    destruct sync; simpl.
    + destruct (isAttached s1); [|done]. by intros [= <-].
    + by intros [= <-].
  - revert H. destruct (offset (senderCommandPoint s) =? 0) eqn:E; [|done]. simpl.
    rewrite Hatt. fold id.
    destruct (record_deliver msg id (getFrameMax h) s) as [[] s1|e s1]; [|done].
    case_bool_decide as Hp; [|done]. simpl. intros H. exists s1. split; [done|].
    destruct sync; simpl in *.
    + destruct (isAttached s1); [|done]. by injection H as <-.
    + injection H as <-. by rewrite app_nil_r.
  - intros Hoff s1 Hrec Hpoint Hatt1.
    assert ((offset (senderCommandPoint s) =? 0) = true) as -> by lia. simpl.
    rewrite Hatt. fold id. rewrite Hrec, Hpoint.
    rewrite bool_decide_eq_true_2 by done. simpl.
    destruct sync; simpl; [rewrite Hatt1|]; eauto.
Qed.

(** ** Pending receives *)

Lemma same_pending_refl (s : SessionState R) : same_pending s s.
Proof. by unfold same_pending. Qed.

Lemma same_pending_trans (s1 s2 s3 : SessionState R) :
  same_pending s1 s2 -> same_pending s2 s3 -> same_pending s1 s3.
Proof. unfold same_pending. intros (?&?&?&?&?) (?&?&?&?&?). split_and!; congruence. Qed.

Lemma receiverCompleted_pending id (s : SessionState R) :
  same_pending s (state_of (receiverCompleted id s)).
Proof. run. case_decide; by unfold same_pending. Qed.

Lemma sendCompletion_pending (s : SessionState R) :
  same_pending s (state_of (sendCompletion s)).
Proof. run. destruct (isAttached s); by unfold same_pending. Qed.

Lemma sendAcceptAndCompletion_pending (s : SessionState R) :
  same_pending s (state_of (sendAcceptAndCompletion s)).
Proof.
  run. case_bool_decide; simpl.
  - destruct (isAttached s); by unfold same_pending.
  - destruct (isAttached s) eqn:E; simpl; [|by unfold same_pending].
    unfold isAttached in *. simpl. rewrite E. by unfold same_pending.
Qed.

Lemma completeExecutionSyncs_pending queue :
  forall called (s : SessionState R),
    same_pending s (state_of (completeExecutionSyncs queue called s)).
Proof.
  induction queue as [|id queue IH]; intros called s; simpl.
  - apply same_pending_refl.
  - unfold bind at 1. unfold receiverGetIncomplete_front.
    destruct (front (receiverIncomplete s)) as [lo|]; [|apply same_pending_refl].
    destruct (seq_lt lo id); [apply same_pending_refl|]. simpl.
    unfold bind at 1. unfold modify at 1. unfold bind at 1.
    destruct (receiverCompleted_fields id (set_pendingExecutionSyncs queue s)) as (-> & _).
    eapply same_pending_trans; [|apply IH].
    eapply same_pending_trans; [|apply receiverCompleted_pending].
    by unfold same_pending.
Qed.

Lemma completeRcvMsg_pending m (s : SessionState R) :
  same_pending s (state_of (completeRcvMsg m s)).
Proof.
  rewrite completeRcvMsg_unfold. cbv zeta.
  set (s_a := state_of (receiverCompleted (getCommandId m) s)).
  set (s_b := if requiresAccept m then _ else s_a).
  assert (same_pending s s_b) as Hb.
  { eapply same_pending_trans; [apply (receiverCompleted_pending (getCommandId m))|].
    fold s_a. subst s_b. destruct (requiresAccept m); by unfold same_pending. }
  pose proof (completeExecutionSyncs_pending (pendingExecutionSyncs s_b) false s_b) as Hc.
  destruct (completeExecutionSyncs _ _ _) as [r s_c|e s_c]; simpl in Hc;
    [|by eapply same_pending_trans].
  assert (same_pending s s_c) as Hsc by (by eapply same_pending_trans).
  destruct (frames_getMethod _) as [method|]; [|done].
  destruct (isSync method).
  - eapply same_pending_trans; [done|apply sendAcceptAndCompletion_pending].
  - destruct r; [|done].
    eapply same_pending_trans; [done|apply sendCompletion_pending].
Qed.

Lemma pending_wf_same (s s' : SessionState R) :
  same_pending s s' -> pending_wf s -> pending_wf s'.
Proof. unfold same_pending, pending_wf. intros (-> & -> & -> & -> & _). done. Qed.

Lemma createPendingMsg_wf m (s : SessionState R) :
  pending_wf s -> pending_wf (state_of (createPendingMsg m s)).
Proof.
  intros Hwf. unfold createPendingMsg. case_bool_decide; [done|]. simpl.
  destruct Hwf as (H1 & H2 & H3 & H4 & H5 & H6).
  set (this := fresh (dom (objects s))).
  assert (objects s !! this = None) as Hfresh.
  { apply not_elem_of_dom. apply is_fresh. }
  assert (forall t, is_Some (objects s !! t) -> t <> this) as Hother.
  { intros t [i Hi] ->. congruence. }
  unfold pending_wf. simpl. split_and!; try done.
  - intros t Ht. destruct (H3 t Ht) as [Ha Hb]. split; [|done].
    rewrite elem_of_union, elem_of_singleton. intros [-> | ?]; [|done].
    eapply Hother; [|done]. apply H5. auto.
  - intros t Ht. rewrite elem_of_union, elem_of_singleton. intros [-> | ?].
    + eapply Hother; [|done]. apply H5. auto.
    + by apply (H4 t).
  - intros t Ht. destruct (decide (t = this)) as [-> | Hne].
    + rewrite lookup_insert_eq. eauto.
    + rewrite lookup_insert_ne by done. apply H5.
      rewrite elem_of_union, elem_of_singleton in Ht. tauto.
  - intros t i. destruct (decide (t = this)) as [-> | Hne].
    + rewrite lookup_insert_eq. intros [= <-]. simpl. intros [? | ?]; done.
    + rewrite lookup_insert_ne by done. intros Hi Hc.
      destruct (H6 t i Hi Hc) as (Ha & Hb & Hd). split_and!; try done.
      rewrite elem_of_union, elem_of_singleton. tauto.
Qed.

Lemma IncompleteRcvMsg_call_wf this sync (s : SessionState R) :
  pending_wf s -> pending_wf (state_of (IncompleteRcvMsg_call this sync s)).
Proof.
  intros Hwf. unfold IncompleteRcvMsg_call, deref.
  unfold bind at 1. destruct (objects s !! this) as [i|] eqn:Hi; [|done].
  destruct (session i) eqn:Hsess; simpl; [|done].
  unfold bind at 1. unfold get at 1. unfold when at 1.
  case_bool_decide as Hreg; [|done].
  unfold bind at 1. unfold modify at 1. unfold bind at 1. unfold get at 1.
  set (s1 := set_incompleteRcvMsgs (incompleteRcvMsgs s ∖ {[this]}) s).
  destruct Hwf as (H1 & H2 & H3 & H4 & H5 & H6).
  assert (this ∉ scheduledRcvMsgs s) as Hns
    by (intros Hin; destruct (H3 this Hin) as [Hx _]; by apply Hx).
  assert (this ∉ completed s) as Hnc by (intros Hin; by apply (H4 this Hin)).
  assert (pending_wf s1) as Hwf1.
  { unfold pending_wf. simpl. split_and!; try done.
    - intros t Ht. destruct (H3 t Ht). split; [|done]. rewrite elem_of_difference. tauto.
    - intros t Ht. rewrite elem_of_difference. intros [? _]. by apply (H4 t).
    - intros t Ht. apply H5. rewrite elem_of_difference in Ht. tauto.
    - intros t j Hj Hc. destruct (H6 t j Hj Hc) as (?&?&?). split_and!; try done.
      rewrite elem_of_difference. tauto. }
  unfold when at 1. destruct (isAttached s1) eqn:Hatt; [|done].
  destruct sync.
  - unfold bind at 1. unfold modify at 1.
    eapply pending_wf_same; [apply completeRcvMsg_pending|].
    unfold pending_wf. simpl. split_and!; try done.
    + apply NoDup_app. split_and!; [done| |apply NoDup_singleton].
      intros t Ht Hin. apply list_elem_of_singleton in Hin. by subst.
    + intros t Ht. destruct (H3 t Ht). split.
      * rewrite elem_of_difference. tauto.
      * rewrite elem_of_app, list_elem_of_singleton. intros [? | ->]; done.
    + intros t Ht. rewrite elem_of_difference, elem_of_singleton.
      apply elem_of_app in Ht as [Ht | Ht].
      * intros [? _]. by apply (H4 t).
      * apply list_elem_of_singleton in Ht. tauto.
    + intros t Ht. rewrite elem_of_difference, elem_of_app, list_elem_of_singleton in Ht.
      destruct Ht as [[? _] | [? | [? | ->]]]; apply H5; by auto.
    + intros t j Hj Hc. destruct (H6 t j Hj Hc) as (?&?&?). split_and!; try done.
      rewrite elem_of_difference. tauto.
  - unfold bind at 1. unfold modify at 1. unfold bind at 1. unfold get at 1.
    set (s2 := set_scheduledRcvMsgs _ s1).
    assert (pending_wf s2) as Hwf2.
    { unfold pending_wf. simpl. split_and!; try done.
      - apply NoDup_app. split_and!; [done| |apply NoDup_singleton].
        intros t Ht Hin. apply list_elem_of_singleton in Hin. by subst.
      - intros t Ht. rewrite elem_of_difference, elem_of_singleton.
        apply elem_of_app in Ht as [Ht | Ht].
        + destruct (H3 t Ht). tauto.
        + apply list_elem_of_singleton in Ht. subst. tauto.
      - intros t Ht. rewrite elem_of_difference. intros [? _]. by apply (H4 t).
      - intros t Ht. rewrite elem_of_difference, elem_of_app, list_elem_of_singleton in Ht.
        destruct Ht as [[? _] | [[? | ->] | ?]]; apply H5; by auto.
      - intros t j Hj Hc. destruct (H6 t j Hj Hc) as (?&?&?). split_and!; try done.
        rewrite elem_of_difference. tauto. }
    unfold when. case_bool_decide; [|done].
    run. destruct (handler s); done.
Qed.

Lemma complete_wf this sync (s : SessionState R) :
  pending_wf s -> pending_wf (state_of (complete this sync s)).
Proof.
  intros Hwf. unfold complete, deref. unfold bind at 1.
  destruct (objects s !! this) as [i|]; [|done].
  destruct (cancelled i); [done|]. by apply IncompleteRcvMsg_call_wf.
Qed.

Lemma scheduledCompleter_loop_wf msgs :
  forall s : SessionState R,
    pending_wf s -> scheduledRcvMsgs s = msgs ->
    pending_wf (state_of (scheduledCompleter_loop msgs s)).
Proof.
  induction msgs as [|iMsg rest IH]; intros s Hwf Hs; simpl; [done|].
  unfold bind at 1. unfold modify at 1.
  set (s1 := set_scheduledRcvMsgs rest s).
  destruct Hwf as (H1 & H2 & H3 & H4 & H5 & H6).
  rewrite Hs in H1, H3, H5. apply NoDup_cons in H1 as [Hnotin Hnodup].
  destruct (H3 iMsg) as [Hnr Hnc]; [left|].
  assert (pending_wf s1) as Hwf1.
  { unfold pending_wf. simpl. split_and!; try done.
    - intros t Ht. apply H3. by right.
    - intros t Ht. apply H5. rewrite elem_of_cons. tauto. }
  unfold bind at 1. unfold deref.
  destruct (objects s1 !! iMsg) as [i|] eqn:Hi; [|done].
  unfold bind at 1. unfold get at 1. unfold bind at 1.
  destruct (session i && isAttached s1); simpl.
  - unfold bind at 1. unfold modify at 1.
    set (s2 := set_completed (completed s1 ++ [iMsg]) s1).
    assert (pending_wf s2) as Hwf2.
    { unfold pending_wf. simpl. split_and!; try done.
      - apply NoDup_app. split_and!; [done| |apply NoDup_singleton].
        intros t Ht Hin. apply list_elem_of_singleton in Hin. by subst.
      - intros t Ht. destruct (H3 t) as [Ha Hb]; [by right|]. split; [done|].
        rewrite elem_of_app, list_elem_of_singleton. intros [? | ->]; done.
      - intros t Ht. apply elem_of_app in Ht as [Ht | Ht]; [by apply H4|].
        apply list_elem_of_singleton in Ht. by subst.
      - intros t Ht. apply H5.
        rewrite elem_of_app, list_elem_of_singleton in Ht. rewrite elem_of_cons. tauto. }
    pose proof (completeRcvMsg_pending (msg i) s2) as Hsame.
    destruct (completeRcvMsg (msg i) s2) as [[] s3|e s3]; simpl in Hsame.
    + apply IH; [by eapply pending_wf_same|]. by destruct Hsame as (_ & -> & _).
    + by eapply pending_wf_same.
  - by apply IH.
Qed.

Lemma scheduledCompleter_wf (s : SessionState R) :
  pending_wf s -> pending_wf (state_of (scheduledCompleter s)).
Proof. intros Hwf. unfold scheduledCompleter, bind, get. by apply scheduledCompleter_loop_wf. Qed.

Lemma cancel_all_spec copy :
  forall s : SessionState R,
    (forall t, t ∈ copy -> is_Some (objects s !! t)) ->
    exists s',
      cancel_all copy s = Ok tt s' /\
      incompleteRcvMsgs s' = incompleteRcvMsgs s /\
      scheduledRcvMsgs s' = scheduledRcvMsgs s /\
      completed s' = completed s /\ out s' = out s /\ handler s' = handler s /\
      forall t, objects s' !! t
                = if decide (t ∈ copy) then cancel_object <$> objects s !! t
                  else objects s !! t.
Proof.
  induction copy as [|ref rest IH]; intros s Hobj; simpl.
  - exists s. by split_and!.
  - unfold bind at 1. unfold IncompleteRcvMsg_cancel, deref. unfold bind at 1.
    destruct (Hobj ref) as [i Hi]; [left|]. rewrite Hi. unfold modify at 1.
    set (s1 := set_objects _ s).
    destruct (IH s1) as (s' & Hrun & Hr & Hs & Hc & Ho & Hh & Hobjs).
    { intros t Ht. simpl. destruct (decide (t = ref)) as [-> | Hne].
      - rewrite lookup_insert_eq. eauto.
      - rewrite lookup_insert_ne by done. apply Hobj. by right. }
    exists s'. split_and!; try done. intros t. rewrite Hobjs. simpl.
    destruct (decide (t = ref)) as [-> | Hne].
    + rewrite lookup_insert_eq, Hi.
      rewrite (decide_True (P := ref ∈ ref :: rest)) by left.
      case_decide; done.
    + rewrite lookup_insert_ne by done.
      case_decide as H1; case_decide as H2; try done.
      * exfalso. apply H2. by right.
      * exfalso. apply elem_of_cons in H2 as [? | ?]; done.
Qed.

Lemma destroy_spec (s : SessionState R) :
  pending_wf s ->
  exists s',
    destroy s = Ok tt s' /\ pending_wf s' /\
    incompleteRcvMsgs s' = ∅ /\ scheduledRcvMsgs s' = [] /\
    completed s' = completed s /\
    forall t, objects s' !! t
              = if decide (t ∈ incompleteRcvMsgs s) then cancel_object <$> objects s !! t
                else objects s !! t.
Proof.
  intros (H1 & H2 & H3 & H4 & H5 & H6). unfold destroy.
  unfold bind at 1. unfold emit at 1. unfold modify at 1.
  set (s1 := set_out _ s).
  unfold bind at 1.
  assert (exists s2,
    (let* timer := get flowControlTimer in
     when (bool_decide (is_Some timer)) (emit TimerCancel)) s1 = Ok tt s2 /\
    incompleteRcvMsgs s2 = incompleteRcvMsgs s /\ objects s2 = objects s /\
    completed s2 = completed s) as (s2 & -> & Hr2 & Ho2 & Hc2).
  { run. case_bool_decide; eexists; split_and!; done. }
  unfold bind at 1. unfold get at 1. unfold bind at 1. unfold modify at 1.
  unfold bind at 1.
  destruct (cancel_all_spec (elements (incompleteRcvMsgs s2))
              (set_incompleteRcvMsgs ∅ s2))
    as (s3 & -> & Hr3 & Hs3 & Hc3 & _ & _ & Hobj3).
  { intros t Ht. simpl. rewrite Ho2. apply H5. left.
    rewrite <- Hr2. by apply elem_of_elements. }
  simpl in *. eexists. split; [done|]. simpl.
  assert (forall t, objects s3 !! t
            = if decide (t ∈ incompleteRcvMsgs s) then cancel_object <$> objects s !! t
              else objects s !! t) as Hobjs.
  { intros t. rewrite Hobj3, Ho2, Hr2.
    destruct (decide (t ∈ incompleteRcvMsgs s)) as [Hin | Hout].
    - rewrite decide_True; [done|]. by apply elem_of_elements.
    - rewrite decide_False; [done|]. by rewrite elem_of_elements. }
  split_and!; try done; [|congruence].
  unfold pending_wf. simpl. rewrite Hr3, Hc3, Hc2. split_and!; try done.
  - apply NoDup_nil_2.
  - intros t Ht. by apply elem_of_nil in Ht.
  - intros t Ht. rewrite Hobjs. destruct Ht as [Ht | [Ht | Ht]].
    + by apply not_elem_of_empty in Ht.
    + by apply elem_of_nil in Ht.
    + destruct (H5 t) as [i Hi]; [auto|]. rewrite Hi. case_decide; simpl; eauto.
  - intros t i. rewrite Hobjs. case_decide as Hin.
    + destruct (objects s !! t) as [j|]; [|done]. simpl. intros [= <-] _.
      split_and!; try done; apply not_elem_of_empty.
    + intros Hi Hc. destruct (H6 t i Hi Hc) as (_ & ? & ?).
      split_and!; try done; apply not_elem_of_empty.
Qed.

Lemma call_wf c (s : SessionState R) : pending_wf s -> pending_wf (state_of (call c s)).
Proof.
  intros Hwf. destruct c as [m|this sync| | |h|]; simpl.
  - unfold bind. pose proof (createPendingMsg_wf m s Hwf) as H.
    destruct (createPendingMsg m s); done.
  - by apply complete_wf.
  - by apply scheduledCompleter_wf.
  - unfold detach. run. done.
  - unfold attach. run. done.
  - destruct (destroy_spec s Hwf) as (s' & -> & ? & _). done.
Qed.

Lemma run_wf calls : forall s : SessionState R, pending_wf s -> pending_wf (run calls s).
Proof.
  induction calls as [|c calls IH]; intros s Hwf; [done|].
  apply IH. by apply call_wf.
Qed.

Lemma pending_wf_initial (s : SessionState R) :
  objects s = ∅ -> incompleteRcvMsgs s = ∅ -> scheduledRcvMsgs s = [] -> completed s = [] ->
  pending_wf s.
Proof.
  intros Ho Hr Hs Hc. unfold pending_wf. rewrite Ho, Hr, Hs, Hc.
  split_and!; try apply NoDup_nil_2.
  - intros t Ht. by apply elem_of_nil in Ht.
  - intros t Ht. by apply elem_of_nil in Ht.
  - intros t [Ht | [Ht | Ht]]; [by apply not_elem_of_empty in Ht|by apply elem_of_nil in Ht..].
  - intros t i Hi. by rewrite lookup_empty in Hi.
Qed.

Lemma scheduledCompleter_loop_detached msgs :
  forall s : SessionState R,
    isAttached s = false ->
    (forall t, t ∈ msgs -> is_Some (objects s !! t)) ->
    scheduledCompleter_loop msgs s
    = Ok tt (match msgs with [] => s | _ => set_scheduledRcvMsgs [] s end).
Proof.
  induction msgs as [|iMsg rest IH]; intros s Hatt Hobj; simpl; [done|].
  unfold bind at 1. unfold modify at 1. unfold bind at 1. unfold deref. simpl.
  destruct (Hobj iMsg) as [i ->]; [left|].
  unfold bind at 1. unfold get at 1. unfold bind at 1.
  replace (isAttached (set_scheduledRcvMsgs rest s)) with (isAttached s) by done.
  rewrite Hatt, andb_false_r. simpl.
  rewrite IH; [|done|intros t Ht; simpl; apply Hobj; by right].
  by destruct rest.
Qed.

(** A completion that comes late does nothing but leave the registry. *)
Lemma complete_late this sync i (s : SessionState R) :
  pending_wf s -> objects s !! this = Some i ->
  cancelled i = true \/ isAttached s = false \/
    this ∈ completed s \/ this ∈ scheduledRcvMsgs s ->
  exists s',
    complete this sync s = Ok tt s' /\
    (s' = s \/ s' = set_incompleteRcvMsgs (incompleteRcvMsgs s ∖ {[this]}) s) /\
    this ∉ incompleteRcvMsgs s'.
Proof.
  intros (H1 & H2 & H3 & H4 & H5 & H6) Hi Hlate.
  unfold complete, deref. unfold bind at 1. rewrite Hi.
  destruct (cancelled i) eqn:Hc.
  { exists s. split_and!; [done|by left|]. by destruct (H6 this i Hi) as (? & _); [left|]. }
  unfold IncompleteRcvMsg_call, deref. unfold bind at 1. rewrite Hi.
  destruct (session i) eqn:Hs; simpl.
  2:{ destruct (H6 this i Hi) as (_ & ? & _); [by right|congruence]. }
  unfold bind at 1. unfold get at 1. unfold when at 1.
  case_bool_decide as Hreg.
  2:{ exists s. split_and!; [done|by left|done]. }
  destruct Hlate as [? | [Hdet | [Hdone | Hsched]]]; [done| | |].
  - unfold bind at 1. unfold modify at 1. unfold bind at 1. unfold get at 1.
    replace (isAttached (set_incompleteRcvMsgs _ s)) with (isAttached s) by done.
    rewrite Hdet. simpl. eexists. split_and!; [done|by right|]. simpl.
    rewrite elem_of_difference, elem_of_singleton. tauto.
  - by destruct (H4 this Hdone).
  - by destruct (H3 this Hsched) as [? _].
Qed.

(** C3: pending receives, at every state [s] that the calls on the
    registry (register, complete, drain, detach, attach, destroy, in any
    order and number) reach from a session without pending receives.
    A completion for a pending receive that is cancelled, that meets the
    session detached, or whose completion already went to
    [completeRcvMsg] or to the deque, returns without a call on a
    collaborator and without calling [completeRcvMsg]: the session after
    it is the session before it, but for the token, which is not in the
    registry.  A drain that meets the session detached empties the deque
    and does no more.  The destructor empties the registry and the
    deque and cancels what was registered; after it every completion
    and the drain leave the session as it is.  No pending receive
    reaches [completeRcvMsg] twice. *)
Theorem C3_late_completion_is_noop (s0 : SessionState R) (calls : list Call) :
  objects s0 = ∅ -> incompleteRcvMsgs s0 = ∅ ->
  scheduledRcvMsgs s0 = [] -> completed s0 = [] ->
  let s := run calls s0 in
  (forall this sync i,
     objects s !! this = Some i ->
     cancelled i = true \/ isAttached s = false \/
       this ∈ completed s \/ this ∈ scheduledRcvMsgs s ->
     exists s',
       complete this sync s = Ok tt s' /\
       (s' = s \/ s' = set_incompleteRcvMsgs (incompleteRcvMsgs s ∖ {[this]}) s) /\
       out s' = out s /\ completed s' = completed s /\
       this ∉ incompleteRcvMsgs s') /\
  (isAttached s = false ->
     exists s',
       scheduledCompleter s = Ok tt s' /\
       scheduledRcvMsgs s' = [] /\ out s' = out s /\ completed s' = completed s) /\
  (exists s_d,
     destroy s = Ok tt s_d /\
     incompleteRcvMsgs s_d = ∅ /\ scheduledRcvMsgs s_d = [] /\
     (forall this i, this ∈ incompleteRcvMsgs s -> objects s !! this = Some i ->
        objects s_d !! this = Some (cancel_object i)) /\
     (forall this sync i, objects s_d !! this = Some i ->
        complete this sync s_d = Ok tt s_d) /\
     scheduledCompleter s_d = Ok tt s_d) /\
  NoDup (completed s).
Proof.
  intros Ho Hr Hs Hc s.
  assert (pending_wf s) as Hwf by (apply run_wf; by apply pending_wf_initial).
  split_and!.
  - intros this sync i Hi Hlate.
    destruct (complete_late this sync i s Hwf Hi Hlate) as (s' & Hrun & Hs' & Hgone).
    exists s'. split_and!; try done; destruct Hs' as [-> | ->]; done.
  - intros Hdet. unfold scheduledCompleter, bind, get.
    rewrite scheduledCompleter_loop_detached; [|done|].
    + eexists. split; [done|]. destruct (scheduledRcvMsgs s) eqn:E; done.
    + intros t Ht. destruct Hwf as (_ & _ & _ & _ & H5 & _). apply H5. auto.
  - destruct (destroy_spec s Hwf) as (s_d & Hrun & Hwf_d & Hr_d & Hs_d & Hc_d & Hobj).
    exists s_d. split_and!; try done.
    + intros this i Hin Hi. rewrite Hobj, Hi. by rewrite decide_True.
    + intros this sync i Hi.
      unfold complete, deref. unfold bind at 1. rewrite Hi.
      destruct (cancelled i) eqn:Hcan; [done|].
      unfold IncompleteRcvMsg_call, deref. unfold bind at 1. rewrite Hi.
      destruct (session i) eqn:Hsess; simpl.
      * unfold bind at 1. unfold get at 1. rewrite Hr_d.
        rewrite bool_decide_eq_false_2; [done|]. apply not_elem_of_empty.
      * destruct Hwf_d as (_ & _ & _ & _ & _ & H6).
        destruct (H6 this i Hi) as (_ & ? & _); [by right|congruence].
    + unfold scheduledCompleter, bind, get. by rewrite Hs_d.
  - by destruct Hwf as (_ & ? & _).
Qed.

End BrokerFacts.

Section CancelFacts.
Import Broker.
Context {R : Type} {rfc : RateFlowcontrol R} {env : Collaborators R}.

(** What [cancel] does when no other thread runs: it clears the
    back-pointer, and a drain that finds the pending receive in the
    deque afterwards passes over it. *)
Lemma cancel_then_drain this i (s : SessionState R) :
  objects s !! this = Some i -> scheduledRcvMsgs s = [this] ->
  exists s1 s2,
    IncompleteRcvMsg_cancel this s = Ok tt s1 /\
    objects s1 !! this = Some (cancel_object i) /\
    scheduledCompleter s1 = Ok tt s2 /\
    out s2 = out s /\ completed s2 = completed s /\ scheduledRcvMsgs s2 = [].
Proof.
  intros Hi Hs. unfold IncompleteRcvMsg_cancel, scheduledCompleter, deref, bind, get, modify.
  rewrite Hi. eexists _, _. split; [done|]. simpl. rewrite Hs. simpl.
  unfold bind, modify, deref, get, when, ret. simpl.
  rewrite lookup_insert_eq. simpl. done.
Qed.

End CancelFacts.

(** ** Scenarios *)

Section BrokerScenarios.
Import Broker.



(** A query with a result, marked sync, as command 0. *)
Lemma C2_handleCommand_steps_witness :
  exists s',
    handleCommand query 0 (receiving 0 {[0]} [] None) = Ok tt s' /\
    receiverIncomplete s' = {[0]} ∖ {[0]} /\
    out s' = [ExecutionResult 0 "answer"; SessionCompleted ({[0]} ∪ ∅)].
Proof.
  edestruct (C2_handleCommand_steps query 0 (receiving 0 {[0]} [] None))
    as (Hinc & _ & Hhandled).
  - reflexivity.
  - reflexivity.
  - destruct Hhandled as (s' & Hrun & Hinc' & Hout); [reflexivity|].
    exists s'. split_and!; [done| |done].
    rewrite Hinc'. done.
Defined.

(** A pending receive whose completion arrives after the detach: it
    leaves the registry and nothing else happens. *)
Lemma C3_late_completion_is_noop_witness :
  exists s',
    complete 1%positive true
      (run [Register (message_of 0 false); Detach] (receiving 1 {[0]} [] None)) = Ok tt s' /\
    out s' = [SemanticDetached] /\ completed s' = [] /\
    (1%positive ∉ incompleteRcvMsgs s') /\ receiverIncomplete s' = {[0]}.
Proof.
  destruct (C3_late_completion_is_noop (receiving 1 {[0]} [] None)
              [Register (message_of 0 false); Detach])
    as (Hlate & _ & _ & _); [reflexivity..|].
  edestruct (Hlate 1%positive true) as (s' & Hrun & Hs' & Hout & Hdone & Hgone).
  - vm_compute. reflexivity.
  - right. left. vm_compute. reflexivity.
  - exists s'. split; [done|]. rewrite Hout, Hdone.
    split_and!; [vm_compute; reflexivity|vm_compute; reflexivity|done|].
    destruct Hs' as [-> | ->]; vm_compute; reflexivity.
Defined.

(** Scenario S3: the flow is stopped (the credit outstanding has
    reached the rate of 10) and the first frame of another transfer
    arrives. *)
Lemma C7_flow_stopped_violation_witness :
  exists s',
    handleContent (mkFrame (MethodBody (transfer false)) true false true true) 0 100
      (receiving 0 {[0]} [] (Some (mkBucket 10 10))) = Ok tt s' /\
    out s' = [MessageStop ""] /\
    log s' = [Warning "producer throttling violation"] /\
    rateFlowcontrol s' = Some (mkBucket 10 10) /\
    flowControlTimer s' = None.
Proof.
  edestruct (C7_flow_stopped_violation
               (mkFrame (MethodBody (transfer false)) true false true true) 0 100
               (receiving 0 {[0]} [] (Some (mkBucket 10 10))))
    as (_ & Hrun & Hrf & _ & Htimer).
  - reflexivity.
  - reflexivity.
  - vm_compute. reflexivity.
  - reflexivity.
  - reflexivity.
  - reflexivity.
  - eexists. split; [exact Hrun|]. split_and!; [reflexivity|reflexivity|exact Hrf|exact Htimer].
Defined.

(** The first frame of a command of several frames that carries no
    content. *)
Lemma C8_handleIn_dispatch_witness :
  handleIn (mkFrame (MethodBody query) true false true true) 100 (receiving 0 {[0]} [] None)
  = Throw (InternalErrorException "Cannot handle multi-frame command segments yet")
      (receiving 0 {[0]} [] None).
Proof.
  destruct (C8_handleIn_dispatch (mkFrame (MethodBody query) true false true true) 100
              (receiving 0 {[0]} [] None)) as (_ & _ & _ & Hfail).
  apply (Hfail query); [reflexivity|reflexivity|right; reflexivity].
Defined.

(** A delivery with sync from the send point (0, 0). *)
Lemma C9_deliver_advances_send_point_witness :
  exists s',
    deliver "record" true (receiving 0 ∅ [] None) = Ok tt s' /\
    senderCommandPoint s' = mkPoint 1 0 /\
    out s' = [Delivered 0 65535; ExecutionSync].
Proof.
  destruct (C9_deliver_advances_send_point "record" true (receiving 0 ∅ [] None)
              (mkHandler 1 65535)) as (_ & Hreturned & Hreturns); [reflexivity|].
  edestruct Hreturns as (s' & Hrun); [reflexivity|vm_compute; reflexivity|reflexivity..|].
  destruct (Hreturned s' Hrun) as (_ & Hpoint & s1 & Hrecord & Hout).
  exists s'. split_and!; [done|done|].
  rewrite Hout. vm_compute in Hrecord. injection Hrecord as <-. reflexivity.
Defined.

End BrokerScenarios.

(** * Further properties of the client *)

Section UrlFacts.
Import Client ClientMore.

(** ** Merging URLs *)

(** X1: [merge] on a list without duplicates.  The list before is a
    prefix of the list after, the value is in the list after, which has
    no duplicates; a value already there leaves the list as it is, a new
    one goes to the end, and merging the value again changes nothing. *)
Theorem merge_appends_once value (l : list string) :
  NoDup l ->
  NoDup (merge value l) /\
  l `prefix_of` merge value l /\
  value ∈ merge value l /\
  (value ∈ l -> merge value l = l) /\
  (value ∉ l -> merge value l = l ++ [value]) /\
  merge value (merge value l) = merge value l.
Proof.
  intros Hl. split_and!.
  - by apply merge_NoDup.
  - apply merge_prefix.
  - apply merge_elem_of. by right.
  - apply merge_present.
  - intros H. unfold merge. by rewrite decide_False.
  - apply merge_present. apply merge_elem_of. by right.
Qed.

Lemma merge_list_mem from (to : list string) x :
  x ∈ merge_list from to <-> x ∈ to \/ x ∈ from.
Proof.
  revert to. induction from as [|v from IH]; intros to.
  - simpl. rewrite elem_of_nil. split; [by left|]. by intros [? | []].
  - change (x ∈ merge_list from (merge v to) <-> x ∈ to \/ x ∈ v :: from).
    rewrite IH, merge_elem_of, elem_of_cons.
    split; [intros [[? | ?] | ?] | intros [? | [? | ?]]]; auto.
Qed.

Lemma merge_list_present from (to : list string) :
  (forall x, x ∈ from -> x ∈ to) -> merge_list from to = to.
Proof.
  revert to. induction from as [|v from IH]; intros to H; [done|].
  change (merge_list from (merge v to) = to).
  rewrite merge_present by (apply H; left). apply IH. intros x Hx. apply H. by right.
Qed.

(** X2: the merge of a list of URLs, as [setOption] does for
    reconnect-urls and [mergeUrls] for the known hosts of the broker.
    The list after holds exactly the entries before and the merged
    ones; it has no duplicates when the list before has none; the list
    before is a prefix of it; merging the same URLs again changes
    nothing, and so does merging URLs that are all there already. *)
Theorem merge_list_spec from (to : list string) :
  NoDup to ->
  NoDup (merge_list from to) /\
  to `prefix_of` merge_list from to /\
  (forall x, x ∈ merge_list from to <-> x ∈ to \/ x ∈ from) /\
  merge_list from (merge_list from to) = merge_list from to /\
  ((forall x, x ∈ from -> x ∈ to) -> merge_list from to = to).
Proof.
  intros Hto. split_and!.
  - by apply merge_list_NoDup.
  - apply merge_list_prefix.
  - intros x. apply merge_list_mem.
  - apply merge_list_present. intros x Hx. apply merge_list_mem. by right.
  - apply merge_list_present.
Qed.

End UrlFacts.

Section OptionFacts.
Import Client ClientMore.

(** ** Options *)

(** X3: an option under its second spelling (with underscores, or
    sasl-mechanisms for sasl-mechanism) does what it does under the
    first, for every value and connection. *)
Theorem setOption_alias first other value c :
  (first, other) ∈ option_aliases ->
  setOption other value c = setOption first value c.
Proof.
  intros H. unfold option_aliases in H.
  repeat (apply elem_of_cons in H as [[= -> ->] | H]; [reflexivity|]).
  by apply elem_of_nil in H.
Qed.

Lemma setOption_unknown name value c :
  name ∉ recognized_options ->
  setOption name value c
  = inl (MessagingException ("Invalid option: " +:+ name +:+ " not recognised")).
Proof.
  intros H.
  assert (forall s, s ∈ recognized_options -> bool_decide (name = s) = false) as Hf.
  { intros s Hs. apply bool_decide_eq_false_2. by intros ->. }
  unfold setOption, is_name.
  rewrite !Hf by (unfold recognized_options; repeat first [ left; reflexivity | right ]).
  reflexivity.
Qed.

(** X4: [setOption] rejects a name with "Invalid option" exactly when
    the name is none of the names it recognises; a recognised name
    either sets the option or fails on the conversion of the value. *)
Theorem setOption_invalid_option name value c :
  (name ∉ recognized_options ->
   setOption name value c
   = inl (MessagingException ("Invalid option: " +:+ name +:+ " not recognised"))) /\
  (name ∈ recognized_options ->
   (exists c', setOption name value c = inr c') \/
   (exists what, setOption name value c = inl (InvalidConversion what))).
Proof.
  split; [apply setOption_unknown|].
  intros H. unfold recognized_options in H.
  repeat (apply elem_of_cons in H as [-> | H];
          [unfold setOption, assign; simpl;
           destruct value; simpl; eauto|]).
  by apply elem_of_nil in H.
Qed.

(** X5: the option reconnect-urls with a list.  With
    reconnect-urls-replace set, the URLs before, the URL of the caller
    among them, are dropped: the list after holds the given URLs alone,
    each once, in the order they were given first.  Without it the
    given URLs are merged after the URLs before.  The policy is as it
    was. *)
Theorem setOption_reconnect_urls l c :
  exists c',
    setOption "reconnect-urls" (VarList l) c = inr c' /\
    policy c' = policy c /\ replaceUrls c' = replaceUrls c /\
    (replaceUrls c = true ->
       urls c' = merge_list l [] /\ NoDup (urls c') /\
       (forall x, x ∈ urls c' <-> x ∈ l) /\
       head (urls c') = head l) /\
    (replaceUrls c = false -> urls c' = merge_list l (urls c)).
Proof.
  unfold setOption. simpl. destruct (replaceUrls c) eqn:E; simpl.
  - eexists. split; [done|]. simpl. rewrite E. split_and!; try done.
    intros _. split_and!; try done.
    + apply merge_list_NoDup. apply NoDup_nil_2.
    + intros x. rewrite merge_list_mem. rewrite elem_of_nil. tauto.
    + destruct l as [|u l]; [done|].
      change (head (merge_list l (merge u [])) = Some u).
      eapply prefix_head; [apply merge_list_prefix|]. done.
  - eexists. split; [done|]. simpl. by rewrite E.
Qed.

(** X6: an option other than reconnect-urls, when [setOption] accepts
    it, leaves the URL list as it is. *)
Theorem setOption_keeps_urls name value c c' :
  name <> "reconnect-urls" -> name <> "reconnect_urls" ->
  setOption name value c = inr c' -> urls c' = urls c.
Proof.
  intros H1 H2. unfold setOption, is_name, assign.
  rewrite (bool_decide_eq_false_2 (name = "reconnect-urls")) by done.
  rewrite (bool_decide_eq_false_2 (name = "reconnect_urls")) by done.
  simpl.
  repeat (case_match; simplify_eq; simpl; try done); intros; simplify_eq; done.
Qed.

End OptionFacts.

Section ReconnectMoreFacts.
Import Client ClientMore.

Variable TIME_SEC : Z.
Variable parseUrl : string -> option (string * string).

(** ** One round over the URLs *)

Lemma credentials_keep (c : ConnectionImpl) user pass :
  let c1 := if bool_decide (user = "") then c
            else set_field "username" (VarString user) c in
  let c2 := if bool_decide (pass = "") then c1
            else set_field "password" (VarString pass) c1 in
  urls c2 = urls c /\ policy c2 = policy c.
Proof. simpl. repeat case_bool_decide; done. Qed.

Lemma tryConnect_from_down net todo :
  forall c,
    (forall u, u ∈ todo -> net u = OpenFails /\ is_Some (parseUrl u)) ->
    exists c',
      tryConnect_from parseUrl net todo c = TryFalse c' /\
      urls c' = urls c /\ policy c' = policy c.
Proof.
  induction todo as [|u todo IH]; intros c H; simpl; [by exists c|].
  destruct (H u) as [Hnet [[user pass] Hparse]]; [left|]. rewrite Hparse, Hnet.
  destruct (credentials_keep c user pass) as [Hu Hp]. simpl in Hu, Hp.
  destruct (IH (if bool_decide (pass = "")
                then if bool_decide (user = "") then c
                     else set_field "username" (VarString user) c
                else set_field "password" (VarString pass)
                       (if bool_decide (user = "") then c
                        else set_field "username" (VarString user) c)))
    as (c' & -> & Hu' & Hp').
  { intros v Hv. apply H. by right. }
  exists c'. split_and!; congruence.
Qed.

(** X7: a round of [tryConnect] on which no URL of the list answers
    (all of them are well-formed) returns false and leaves the URL list
    and the reconnect policy as they were; so does a round over an empty
    URL list, whatever the network. *)
Theorem tryConnect_unreachable net c :
  (forall u, u ∈ urls c -> net u = OpenFails /\ is_Some (parseUrl u)) ->
  exists c',
    tryConnect parseUrl net c = TryFalse c' /\
    urls c' = urls c /\ policy c' = policy c.
Proof. apply tryConnect_from_down. Qed.

Lemma tryConnect_from_first_open net before u after hosts reset user pass :
  forall c,
    (forall b, b ∈ before -> net b = OpenFails /\ is_Some (parseUrl b)) ->
    parseUrl u = Some (user, pass) -> net u = Opens hosts reset ->
    exists c2,
      tryConnect_from parseUrl net (before ++ u :: after) c
      = resetSessions reset (mergeUrls hosts c2) /\
      urls c2 = urls c /\ policy c2 = policy c.
Proof.
  induction before as [|b before IH]; intros c Hdown Hparse Hnet; simpl.
  - rewrite Hparse, Hnet. eexists. split; [done|]. apply credentials_keep.
  - destruct (Hdown b) as [Hb [[ub pb] Hpb]]; [left|]. rewrite Hpb, Hb.
    destruct (credentials_keep c ub pb) as [Hu Hp]. simpl in Hu, Hp.
    edestruct IH as (c2 & -> & Hu2 & Hp2); [|done|done|].
    { intros v Hv. apply Hdown. by right. }
    exists c2. split_and!; congruence.
Qed.

(** X8: [tryConnect] ends at the first URL of the list that opens.  The
    known hosts of that broker are merged into the URL list, and the
    round returns what [resetSessions] returns there: when the sessions
    cannot be re-established the round returns false (or throws
    TargetCapacityExceeded, on a resource limit with
    x-reconnect-on-limit-exceeded off) without a try at the URLs after
    it. *)
Theorem tryConnect_first_open net c before u after hosts reset :
  urls c = before ++ u :: after ->
  (forall b, b ∈ before -> net b = OpenFails /\ is_Some (parseUrl b)) ->
  is_Some (parseUrl u) -> net u = Opens hosts reset ->
  exists c',
    urls c' = merge_list hosts (urls c) /\ policy c' = policy c /\
    tryConnect parseUrl net c
    = match reset with
      | ResetOk => TryTrue c'
      | ResetTransportFailure => TryFalse c'
      | ResetLimitExceeded what =>
          if reconnectOnLimitExceeded c then TryFalse c'
          else TryThrow (TargetCapacityExceeded what) c'
      end.
Proof.
  intros Hurls Hdown [[user pass] Hparse] Hnet. unfold tryConnect. rewrite Hurls.
  destruct (tryConnect_from_first_open net before u after hosts reset user pass c)
    as (c2 & -> & Hu2 & Hp2); [done..|].
  exists (mergeUrls hosts c2). rewrite <- Hurls. split_and!.
  - simpl. by rewrite Hu2.
  - unfold policy in *. simpl. done.
  - unfold resetSessions. destruct reset; try done.
    replace (reconnectOnLimitExceeded (mergeUrls hosts c2))
      with (reconnectOnLimitExceeded c); [done|].
    unfold policy in Hp2. simpl. congruence.
Qed.

(** ** The URL list and the options through [connect] *)

Lemma tryConnect_from_urls net todo :
  forall c,
    let c' := conn_of (tryConnect_from parseUrl net todo c) in
    urls c `prefix_of` urls c' /\ (NoDup (urls c) -> NoDup (urls c')).
Proof.
  induction todo as [|u todo IH]; intros c; simpl; [done|].
  destruct (parseUrl u) as [[user pass]|]; [|done].
  destruct (credentials_keep c user pass) as [Hu _]. simpl in Hu.
  destruct (net u) as [|hosts reset].
  - specialize (IH (if bool_decide (pass = "")
                    then if bool_decide (user = "") then c
                         else set_field "username" (VarString user) c
                    else set_field "password" (VarString pass)
                           (if bool_decide (user = "") then c
                            else set_field "username" (VarString user) c))).
    simpl in IH. by rewrite Hu in IH.
  - assert (forall r, conn_of (resetSessions reset r) = r) as Hr.
    { intros r. unfold resetSessions. destruct reset; try done.
      by destruct (reconnectOnLimitExceeded r). }
    rewrite Hr. simpl. rewrite Hu. split; [apply merge_list_prefix|apply merge_list_NoDup].
Qed.

Lemma connect_from_urls started script :
  forall i c slept,
    let c' := connection_of (connect_from TIME_SEC parseUrl started script i c slept) in
    urls c `prefix_of` urls c' /\ (NoDup (urls c) -> NoDup (urls c')) /\
    (reconnect c', timeout c', limit c', minReconnectInterval c', maxReconnectInterval c')
    = (reconnect c, timeout c, limit c, minReconnectInterval c, maxReconnectInterval c).
Proof.
  induction script as [|[net now] rest IH]; intros i c slept; simpl; [done|].
  pose proof (tryConnect_from_urls net (urls c) c) as [Hpre Hnd]. fold (tryConnect parseUrl net c) in *.
  pose proof (tryConnect_policy parseUrl net c) as Hp.
  destruct (tryConnect parseUrl net c) as [c1|c1|e c1]; simpl in *;
    apply policy_fields in Hp as (Hr & Ht & Hl & Hmi & Hma & Hre).
  - split_and!; try done. congruence.
  - destruct (negb (reconnect c1)); simpl; [split_and!; try done; congruence|].
    destruct ((0 <=? limit c1) && (limit c1 <=? retries c1)); simpl;
      [split_and!; try done; congruence|].
    set (c2 := if 0 <=? limit c1 then _ else _).
    assert (urls c2 = urls c1 /\
            (reconnect c2, timeout c2, limit c2, minReconnectInterval c2,
             maxReconnectInterval c2)
            = (reconnect c1, timeout c1, limit c1, minReconnectInterval c1,
               maxReconnectInterval c1)) as [Hu2 Hp2].
    { subst c2. by destruct (0 <=? limit c1). }
    destruct (expired _ _ _ _); simpl.
    + rewrite Hu2, Hp2. split_and!; try done. congruence.
    + edestruct IH as (Hpre' & Hnd' & Hp'). split_and!.
      * etrans; [apply Hpre|]. rewrite <- Hu2. apply Hpre'.
      * intros H. apply Hnd'. rewrite Hu2. by apply Hnd.
      * rewrite Hp', Hp2. congruence.
  - split_and!; try done. congruence.
Qed.

(** X9: through every run of [connect], with its failed rounds, its
    merges of known hosts and its sleeps, the URL list only grows at the
    end: the list before is a prefix of the list after, so the first
    entry stays first; a list without duplicates stays without
    duplicates; and the reconnect options are as they were. *)
Theorem connect_keeps_urls started script c :
  NoDup (urls c) ->
  let c' := connection_of (connect TIME_SEC parseUrl started script c) in
  NoDup (urls c') /\
  urls c `prefix_of` urls c' /\
  (forall u, head (urls c) = Some u -> head (urls c') = Some u) /\
  (reconnect c', timeout c', limit c', minReconnectInterval c', maxReconnectInterval c')
  = (reconnect c, timeout c, limit c, minReconnectInterval c, maxReconnectInterval c).
Proof.
  intros Hnd c'.
  destruct (connect_from_urls started script (minReconnectInterval c) c [])
    as (Hpre & Hnd' & Hp).
  split_and!; [by apply Hnd'|done| |done].
  intros u. by apply prefix_head.
Qed.

(** ** The limit *)

Lemma connect_from_bound started script :
  forall i c slept,
    0 <= limit c ->
    let r := connect_from TIME_SEC parseUrl started script i c slept in
    Z.of_nat (length (slept_of r))
    <= Z.of_nat (length slept) + Z.max 0 (limit c - retries c).
Proof.
  induction script as [|[net now] rest IH]; intros i c slept Hlim; simpl; [lia|].
  pose proof (tryConnect_policy parseUrl net c) as Hp.
  destruct (tryConnect parseUrl net c) as [c1|c1|e c1]; simpl in *;
    apply policy_fields in Hp as (Hr & Ht & Hl & Hmi & Hma & Hre); [lia| |lia].
  destruct (negb (reconnect c1)); simpl; [lia|].
  assert ((0 <=? limit c1) = true) as -> by lia. simpl.
  destruct (limit c1 <=? retries c1) eqn:E; simpl; [lia|].
  destruct (expired _ _ _ _); simpl; [lia|].
  etrans; [apply IH; simpl; lia|]. simpl. rewrite length_app. simpl. lia.
Qed.

(** X10: with a reconnect limit that is not negative, a run of
    [connect] sleeps at most limit minus retries times (and not at all
    when the retries have reached the limit), however long the network
    stays down. *)
Theorem connect_sleeps_bounded started script c :
  0 <= limit c ->
  Z.of_nat (length (slept_of (connect TIME_SEC parseUrl started script c)))
  <= Z.max 0 (limit c - retries c).
Proof.
  intros H. pose proof (connect_from_bound started script (minReconnectInterval c) c [] H).
  simpl in *. unfold connect. lia.
Qed.

Lemma connect_from_limit_retries started script :
  forall i c slept c2 slept2,
    connect_from TIME_SEC parseUrl started script i c slept
    = Failed (TransportFailure "Failed to connect within reconnect limit") c2 slept2 ->
    0 <= limit c2 < retries c2.
Proof.
  induction script as [|[net now] rest IH]; intros i c slept c2 slept2; simpl; [done|].
  destruct (tryConnect parseUrl net c) as [c1|c1|e c1] eqn:Etry; [done| |].
  - destruct (negb (reconnect c1)); [done|].
    destruct (0 <=? limit c1) eqn:E0; simpl.
    + destruct (limit c1 <=? retries c1) eqn:E1.
      * intros [= <- _]. simpl. lia.
      * destruct (expired _ _ _ _); [done|]. apply IH.
    + destruct (expired _ _ _ _); [done|]. apply IH.
  - intros [= -> <- <-]. exfalso. clear -Etry. unfold tryConnect in Etry.
    revert Etry. generalize (urls c) as todo. generalize c as d.
    intros d todo; revert d.
    induction todo as [|u todo IHt]; intros d; simpl; [done|].
    destruct (parseUrl u) as [[user pass]|]; [|done].
    destruct (net u) as [|hosts reset]; [apply IHt|].
    destruct reset; simpl; try done.
    destruct (reconnectOnLimitExceeded _); done.
Qed.

(** X11: a [connect] that gave up on the reconnect limit leaves the
    retry counter above the limit, so every later [connect] gives up at
    its first failed round without a sleep, until one round succeeds. *)
Theorem connect_limit_is_sticky started script c c2 slept :
  connect TIME_SEC parseUrl started script c
  = Failed (TransportFailure "Failed to connect within reconnect limit") c2 slept ->
  0 <= limit c2 < retries c2 /\
  forall started' script',
    slept_of (connect TIME_SEC parseUrl started' script' c2) = [].
Proof.
  intros H. apply connect_from_limit_retries in H. split; [done|].
  intros started' script'.
  pose proof (connect_from_bound started' script' (minReconnectInterval c2) c2 []
                ltac:(lia)) as Hb.
  unfold connect. cbv zeta in Hb.
  destruct (slept_of _); [done|]. simpl in Hb. lia.
Qed.

Lemma connect_from_disabled started net now rest i c slept :
  reconnect c = false ->
  connect_from TIME_SEC parseUrl started ((net, now) :: rest) i c slept
  = match tryConnect parseUrl net c with
    | TryTrue c1 => Connected (set_retries 0 c1) slept
    | TryFalse c1 =>
        Failed (TransportFailure "Failed to connect (reconnect disabled)") c1 slept
    | TryThrow e c1 => Failed e c1 slept
    end.
Proof.
  intros Hr. simpl.
  pose proof (tryConnect_policy parseUrl net c) as Hp.
  destruct (tryConnect parseUrl net c) as [c1|c1|e c1]; simpl in *; try done.
  apply policy_fields in Hp as (Hr1 & _). by rewrite Hr1, Hr.
Qed.

(** X12: with reconnect disabled, [connect] makes one round over the
    URLs and ends: it never sleeps, the rest of the script is not
    looked at, and the retry counter is touched only by the reset to
    zero on success. *)
Theorem connect_without_reconnect started net now rest c :
  reconnect c = false ->
  let r := connect TIME_SEC parseUrl started ((net, now) :: rest) c in
  r = connect TIME_SEC parseUrl started [(net, now)] c /\
  slept_of r = [] /\
  (forall i c' sl, r <> Retrying i c' sl) /\
  (forall e c' sl, r = Failed e c' sl -> retries c' = retries c).
Proof.
  intros Hr r. subst r. unfold connect.
  rewrite !connect_from_disabled by done.
  pose proof (tryConnect_policy parseUrl net c) as Hp.
  destruct (tryConnect parseUrl net c) as [c1|c1|e c1]; simpl in *;
    apply policy_fields in Hp as (_ & _ & _ & _ & _ & Hre);
    split_and!; try done; intros; simplify_eq; done.
Qed.

(** ** The timeout *)

Lemma connect_from_timeout started script :
  forall i c slept c2 slept2,
    connect_from TIME_SEC parseUrl started script i c slept
      = Failed (TransportFailure "Failed to connect within reconnect timeout") c2 slept2 ->
    reconnect c = true /\
    exists before net now after,
      script = before ++ (net, now) :: after /\
      expired TIME_SEC started now (timeout c) = true /\
      Forall (fun round => expired TIME_SEC started round.2 (timeout c) = false) before /\
      length slept2 = (length slept + length before)%nat.
Proof.
  induction script as [|[net now] rest IH]; intros i c slept c2 slept2; simpl; [done|].
  pose proof (tryConnect_policy parseUrl net c) as Hp.
  destruct (tryConnect parseUrl net c) as [c1|c1|e c1] eqn:Etry; simpl in Hp;
    apply policy_fields in Hp as (Hr & Ht & Hl & Hmi & Hma & Hre); [done| |].
  - destruct (reconnect c1) eqn:Er; simpl; [|done].
    destruct ((0 <=? limit c1) && (limit c1 <=? retries c1)); [done|].
    assert (timeout (if 0 <=? limit c1 then set_retries (retries c1 + 1) c1 else c1)
            = timeout c) as Ht2 by (by destruct (0 <=? limit c1)).
    assert (reconnect (if 0 <=? limit c1 then set_retries (retries c1 + 1) c1 else c1)
            = true) as Hr2 by (by destruct (0 <=? limit c1)).
    rewrite Ht2. destruct (expired TIME_SEC started now (timeout c)) eqn:Ex.
    + intros [= <- <-]. split; [congruence|].
      exists [], net, now, rest. split_and!; [done|done|constructor|simpl; lia].
    + intros Hrun. apply IH in Hrun as (_ & before & net' & now' & after & -> & Hx & Hb & Hlen).
      rewrite Ht2 in Hx, Hb. split; [congruence|].
      exists ((net, now) :: before), net', now', after.
      split_and!; [done|done|by constructor|].
      rewrite Hlen, length_app. simpl. lia.
  - intros [= -> <- <-]. exfalso.
    clear -Etry. unfold tryConnect in Etry. revert Etry.
    generalize (urls c) at 1. intros todo. revert c.
    induction todo as [|u todo IHt]; intros c; simpl; [done|].
    destruct (parseUrl u) as [[user pass]|]; [|done].
    destruct (net u) as [|hosts reset]; [apply IHt|].
    destruct reset; simpl; try done.
    by destruct (reconnectOnLimitExceeded _).
Qed.

(** X25: a run of [connect] whose timeout, in ticks of the clock, and
    whose times since the start fit the 64 bits of a [Duration].  When
    it fails within the reconnect timeout, reconnect is on, the timeout
    is not negative, and the failure is at the first round whose reading
    of the clock is past the timeout (every reading is, for a timeout of
    zero): it has slept once for each round before it, and no reading
    before it was past the timeout. *)
Theorem connect_timeout_first_expiry started script c c2 slept :
  - 2 ^ 63 <= timeout c * TIME_SEC < 2 ^ 63 ->
  Forall (fun round => - 2 ^ 63 <= round.2 - started < 2 ^ 63) script ->
  connect TIME_SEC parseUrl started script c
    = Failed (TransportFailure "Failed to connect within reconnect timeout") c2 slept ->
  reconnect c = true /\ 0 <= timeout c /\
  exists before net now after,
    script = before ++ (net, now) :: after /\
    (timeout c = 0 \/ timeout c * TIME_SEC < now - started) /\
    Forall (fun round => 0 < timeout c /\ round.2 - started <= timeout c * TIME_SEC) before /\
    length slept = length before.
Proof.
  intros Hticks Hused Hrun. apply connect_from_timeout in Hrun
    as (Hr & before & net & now & after & -> & Hx & Hb & Hlen).
  assert (forall t, - 2 ^ 63 <= t - started < 2 ^ 63 ->
            expired TIME_SEC started t (timeout c) = true ->
            0 <= timeout c /\ (timeout c = 0 \/ timeout c * TIME_SEC < t - started)) as Hyes.
  { intros t Ht. unfold expired. rewrite !wrap64_small by done.
    destruct (timeout c =? 0) eqn:E0; [lia|].
    destruct (timeout c <? 0) eqn:E1; [done|]. lia. }
  assert (forall t, - 2 ^ 63 <= t - started < 2 ^ 63 ->
            expired TIME_SEC started t (timeout c) = false ->
            0 <= timeout c -> 0 < timeout c /\ t - started <= timeout c * TIME_SEC) as Hno.
  { intros t Ht. unfold expired. rewrite !wrap64_small by done.
    destruct (timeout c =? 0) eqn:E0; [done|].
    destruct (timeout c <? 0) eqn:E1; [lia|]. lia. }
  apply Forall_app in Hused as [Hused_before Hused_at].
  apply Forall_cons in Hused_at as [Hused_now _].
  destruct (Hyes now Hused_now Hx) as (Hpos & Hpast).
  split_and!; [done|done|].
  exists before, net, now, after. split_and!; [done|done| |done].
  clear -Hb Hused_before Hno Hpos.
  induction before as [|round before IH]; [constructor|].
  apply Forall_cons in Hb as [Hb1 Hb2]. apply Forall_cons in Hused_before as [Hu1 Hu2].
  constructor; [by apply Hno|by apply IH].
Qed.

(** X26: the product of the timeout and the ticks of a second is taken
    in 64 bits.  When it wraps to a negative number (at 10^9 ticks a
    second, a timeout of 9223372037 seconds or more), every time since
    the start that is not negative is past it: with reconnect on and the
    limit not reached, [connect] fails within the reconnect timeout at
    its first failed round, without a sleep. *)
Theorem connect_timeout_wraps started net now rest c c1 :
  reconnect c = true -> limit c < 0 \/ retries c < limit c ->
  0 < timeout c -> wrap64 (timeout c * TIME_SEC) < 0 ->
  0 <= now - started < 2 ^ 63 ->
  tryConnect parseUrl net c = TryFalse c1 ->
  exists c2,
    connect TIME_SEC parseUrl started ((net, now) :: rest) c
    = Failed (TransportFailure "Failed to connect within reconnect timeout") c2 [] /\
    urls c2 = urls c1.
Proof.
  intros Hr Hlim Hpos Hwrap Hused Htry. unfold connect. simpl. rewrite Htry.
  pose proof (tryConnect_policy parseUrl net c) as Hp. rewrite Htry in Hp. simpl in Hp.
  apply policy_fields in Hp as (Hr1 & Ht & Hl & _ & _ & Hre).
  rewrite Hr1, Hr, Hl, Hre. simpl.
  assert ((0 <=? limit c) && (limit c <=? retries c) = false) as ->.
  { destruct (0 <=? limit c) eqn:E0; [|done].
    destruct (limit c <=? retries c) eqn:E1; [lia|done]. }
  set (c2 := if 0 <=? limit c then set_retries (retries c + 1) c1 else c1).
  assert (timeout c2 = timeout c /\ urls c2 = urls c1) as [Ht2 Hu2].
  { subst c2. by destruct (0 <=? limit c). }
  assert (expired TIME_SEC started now (timeout c2) = true) as ->.
  { unfold expired. rewrite Ht2. rewrite (wrap64_small (now - started)) by lia.
    destruct (timeout c =? 0) eqn:E0; [done|].
    destruct (timeout c <? 0) eqn:E1; [lia|]. lia. }
  by exists c2.
Qed.

End ReconnectMoreFacts.

Section ClientMoreScenarios.
Import Client ClientMore.

Ltac elem_of_literal := repeat first [ left | right ].
Ltac not_elem_of_literal :=
  let H := fresh in
  intros H; repeat (apply elem_of_cons in H as [H | H]; [discriminate H|]);
  by apply elem_of_nil in H.

Lemma merge_appends_once_witness :
  merge "amqp://b" ["amqp://a"] = ["amqp://a"; "amqp://b"] /\
  merge "amqp://a" ["amqp://a"] = ["amqp://a"].
Proof.
  destruct (merge_appends_once "amqp://b" ["amqp://a"]) as (_ & _ & _ & _ & Hnew & _).
  { apply NoDup_singleton. }
  destruct (merge_appends_once "amqp://a" ["amqp://a"]) as (_ & _ & _ & Hold & _).
  { apply NoDup_singleton. }
  split; [apply Hnew; not_elem_of_literal | apply Hold; elem_of_literal].
Defined.

(** Scenario S5: the broker advertises the URL the client has and one
    more. *)
Lemma merge_list_spec_witness :
  merge_list ["amqp://a"; "amqp://b"] ["amqp://a"] = ["amqp://a"; "amqp://b"] /\
  merge_list ["amqp://a"; "amqp://b"] ["amqp://a"; "amqp://b"] = ["amqp://a"; "amqp://b"].
Proof.
  destruct (merge_list_spec ["amqp://a"; "amqp://b"] ["amqp://a"]) as (_ & _ & _ & Hagain & _).
  { apply NoDup_singleton. }
  split; [reflexivity|]. exact Hagain.
Defined.

Lemma setOption_alias_witness :
  setOption "reconnect_limit" (VarInt 5) initial = inr (set_limit 5 initial).
Proof.
  rewrite (setOption_alias "reconnect-limit" "reconnect_limit"); [reflexivity|].
  unfold option_aliases. elem_of_literal.
Defined.

Lemma setOption_invalid_option_witness :
  setOption "reconnect-delay" (VarInt 5) initial
  = inl (MessagingException "Invalid option: reconnect-delay not recognised").
Proof.
  apply (setOption_invalid_option "reconnect-delay" (VarInt 5) initial).
  unfold recognized_options. not_elem_of_literal.
Defined.

(** The caller's URL is dropped by a replacing reconnect-urls. *)
Lemma setOption_reconnect_urls_witness :
  exists c',
    setOption "reconnect-urls" (VarList ["amqp://b"; "amqp://b"; "amqp://c"])
      (set_replaceUrls true (with_policy true (-1) (-1) 3 60 "amqp://a")) = inr c' /\
    urls c' = ["amqp://b"; "amqp://c"].
Proof.
  destruct (setOption_reconnect_urls ["amqp://b"; "amqp://b"; "amqp://c"]
              (set_replaceUrls true (with_policy true (-1) (-1) 3 60 "amqp://a")))
    as (c' & Hrun & _ & _ & Hreplace & _).
  exists c'. split; [done|]. destruct Hreplace as (-> & _); reflexivity.
Defined.

Lemma setOption_keeps_urls_witness :
  urls (set_limit 5 (with_policy true (-1) (-1) 3 60 "amqp://a")) = ["amqp://a"].
Proof.
  rewrite (setOption_keeps_urls "reconnect-limit" (VarInt 5)
             (with_policy true (-1) (-1) 3 60 "amqp://a")); [reflexivity|discriminate..|].
  reflexivity.
Defined.

Lemma tryConnect_unreachable_witness :
  exists c',
    tryConnect plain_url net_down (with_policy true (-1) (-1) 3 60 "amqp://a") = TryFalse c' /\
    urls c' = ["amqp://a"].
Proof.
  destruct (tryConnect_unreachable plain_url net_down
              (with_policy true (-1) (-1) 3 60 "amqp://a")) as (c' & Hrun & Hurls & _).
  - intros u _. split; [reflexivity|]. by eexists.
  - exists c'. split; [done|]. rewrite Hurls. reflexivity.
Defined.

(** The first URL is down; the second opens, but its sessions cannot be
    re-established: the third is not tried. *)
Lemma tryConnect_first_open_witness :
  exists c',
    tryConnect plain_url (net_only "amqp://b" ["amqp://d"] ResetTransportFailure)
      (mergeUrls ["amqp://b"; "amqp://c"] (with_policy true (-1) (-1) 3 60 "amqp://a"))
    = TryFalse c' /\
    urls c' = ["amqp://a"; "amqp://b"; "amqp://c"; "amqp://d"].
Proof.
  destruct (tryConnect_first_open plain_url
              (net_only "amqp://b" ["amqp://d"] ResetTransportFailure)
              (mergeUrls ["amqp://b"; "amqp://c"] (with_policy true (-1) (-1) 3 60 "amqp://a"))
              ["amqp://a"] "amqp://b" ["amqp://c"] ["amqp://d"] ResetTransportFailure)
    as (c' & Hurls & _ & Hrun).
  - reflexivity.
  - intros b Hb. apply list_elem_of_singleton in Hb as ->. split; [reflexivity|by eexists].
  - by eexists.
  - reflexivity.
  - exists c'. split; [done|]. rewrite Hurls. reflexivity.
Defined.

Lemma connect_keeps_urls_witness :
  urls (connection_of
          (connect 1000000000 plain_url 0
             [(net_down, 0); (net_up ["amqp://b"; "amqp://a"], 3)]
             (with_policy true (-1) (-1) 3 60 "amqp://a")))
  = ["amqp://a"; "amqp://b"] /\
  NoDup (urls (connection_of
          (connect 1000000000 plain_url 0
             [(net_down, 0); (net_up ["amqp://b"; "amqp://a"], 3)]
             (with_policy true (-1) (-1) 3 60 "amqp://a")))).
Proof.
  split; [vm_compute; reflexivity|].
  apply (connect_keeps_urls 1000000000 plain_url 0
           [(net_down, 0); (net_up ["amqp://b"; "amqp://a"], 3)]
           (with_policy true (-1) (-1) 3 60 "amqp://a")).
  apply NoDup_singleton.
Defined.

Lemma connect_sleeps_bounded_witness :
  Z.of_nat (length (slept_of
    (connect 1000000000 plain_url 0
       [(net_down, 0); (net_down, 3); (net_down, 9); (net_down, 21); (net_down, 45)]
       (with_policy true (-1) 2 3 60 "amqp://a")))) <= 2.
Proof.
  apply (connect_sleeps_bounded 1000000000 plain_url 0
           [(net_down, 0); (net_down, 3); (net_down, 9); (net_down, 21); (net_down, 45)]
           (with_policy true (-1) 2 3 60 "amqp://a")).
  simpl. lia.
Defined.

Lemma connect_limit_is_sticky_witness :
  exists c2,
    connect 1000000000 plain_url 0 [(net_down, 0); (net_down, 3); (net_down, 9)]
      (with_policy true (-1) 2 3 60 "amqp://a")
    = Failed (TransportFailure "Failed to connect within reconnect limit") c2 [3; 6] /\
    retries c2 = 3 /\
    slept_of (connect 1000000000 plain_url 20 [(net_down, 20); (net_down, 23)] c2) = [].
Proof.
  eexists. split; [vm_compute; reflexivity|]. split; [reflexivity|].
  eapply (connect_limit_is_sticky 1000000000 plain_url 0
            [(net_down, 0); (net_down, 3); (net_down, 9)]
            (with_policy true (-1) 2 3 60 "amqp://a")).
  vm_compute. reflexivity.
Defined.

Lemma connect_without_reconnect_witness :
  slept_of (connect 1000000000 plain_url 0 [(net_down, 0); (net_up [], 3)]
              (with_policy false (-1) (-1) 3 60 "amqp://a")) = [].
Proof.
  apply (connect_without_reconnect 1000000000 plain_url 0 net_down 0 [(net_up [], 3)]
           (with_policy false (-1) (-1) 3 60 "amqp://a")).
  reflexivity.
Defined.

(** A timeout of 5 seconds; the network is down at the readings 0, 3
    and 9 seconds after the start. *)
Lemma connect_timeout_first_expiry_witness :
  exists c2,
    connect 1 plain_url 0 [(net_down, 0); (net_down, 3); (net_down, 9); (net_down, 12)]
      (with_policy true 5 (-1) 3 60 "amqp://a")
    = Failed (TransportFailure "Failed to connect within reconnect timeout") c2 [3; 6] /\
    exists before net now after,
      [(net_down, 0); (net_down, 3); (net_down, 9); (net_down, 12)]
      = before ++ (net, now) :: after /\ length before = 2%nat.
Proof.
  eexists. split; [vm_compute; reflexivity|].
  edestruct (connect_timeout_first_expiry 1 plain_url 0
               [(net_down, 0); (net_down, 3); (net_down, 9); (net_down, 12)]
               (with_policy true 5 (-1) 3 60 "amqp://a"))
    as (_ & _ & before & net & now & after & Hscript & _ & _ & Hlen).
  - simpl. lia.
  - repeat constructor; simpl; lia.
  - vm_compute. reflexivity.
  - exists before, net, now, after. split; [exact Hscript|]. symmetry. exact Hlen.
Defined.

(** A timeout of 10^10 seconds at 10^9 ticks a second; the first round
    fails one tick after the start. *)
Lemma connect_timeout_wraps_witness :
  exists c2,
    connect 1000000000 plain_url 0 [(net_down, 1); (net_up [], 2)]
      (with_policy true 10000000000 (-1) 3 60 "amqp://a")
    = Failed (TransportFailure "Failed to connect within reconnect timeout") c2 [] /\
    urls c2 = ["amqp://a"].
Proof.
  edestruct (connect_timeout_wraps 1000000000 plain_url 0 net_down 1 [(net_up [], 2)]
               (with_policy true 10000000000 (-1) 3 60 "amqp://a"))
    as (c2 & Hrun & Hurls).
  - reflexivity.
  - left. simpl. lia.
  - simpl. lia.
  - vm_compute. reflexivity.
  - lia.
  - vm_compute. reflexivity.
  - exists c2. split; [exact Hrun|]. rewrite Hurls. reflexivity.
Defined.

End ClientMoreScenarios.

(** * Further properties of the broker session *)

Section BrokerMoreFacts.
Import Broker BrokerMore.
Context {R : Type} {rfc : RateFlowcontrol R} {env : Collaborators R}.
Local Open Scope session_scope.

Ltac run :=
  unfold sendAcceptAndCompletion, sendCompletion, getProxy, getClusterOrderProxy,
    getConnection, receiverGetIncomplete_front, receiverCompleted, QPID_LOG, emit,
    when, bind, ret, throw, get, modify in *;
  simpl in *.

(** ** execution.sync *)

(** X13: an execution.sync that arrives when no incomplete id is before
    it, in the order of the wrap-around sequence, is completed at once
    by [handleCommand]: it leaves the incomplete set for the completed
    ids, the queue of pending syncs is as it was, and the accept and
    completion go out when the method is marked sync (nothing goes out
    when it is not). *)
Theorem execution_sync_completes_at_dispatch method (s : SessionState R) :
  operation method = ExecutionSyncOp ->
  receiverCurrent s ∈ receiverIncomplete s ->
  (forall c, c ∈ receiverIncomplete s -> seq_lt c (receiverCurrent s) = false) ->
  isAttached s = true ->
  exists s',
    handleCommand method (receiverCurrent s) s = Ok tt s' /\
    receiverIncomplete s' = receiverIncomplete s ∖ {[receiverCurrent s]} /\
    receiverCurrent s ∈ receiverUnknownCompleted s' /\
    pendingExecutionSyncs s' = pendingExecutionSyncs s /\
    currentCommandComplete s' = true /\
    (isSync method = false -> out s' = out s) /\
    (isSync method = true ->
       exists before,
         out s' = out s ++ before ++ [SessionCompleted (receiverUnknownCompleted s')]).
Proof.
  intros Hop Hin Hnone Hatt.
  destruct (front (receiverIncomplete s)) as [lo|] eqn:Hfront;
    [|apply front_None in Hfront; rewrite Hfront in Hin; by apply not_elem_of_empty in Hin].
  pose proof (Hnone lo (front_in _ _ Hfront)) as Hlo.
  unfold handleCommand, invoke, addPendingExecutionSync. rewrite Hop. run.
  rewrite Hfront. simpl. rewrite Hlo. simpl.
  rewrite decide_True by done. simpl. rewrite andb_true_r.
  unfold isAttached in *. simpl.
  assert (receiverCurrent s ∈ {[receiverCurrent s]} ∪ receiverUnknownCompleted s) as Hdone
    by (apply elem_of_union_l; by apply elem_of_singleton).
  destruct (handler s) as [h|] eqn:Hh; [|done]. clear Hatt.
  assert (forall s0 : SessionState R,
            handler s0 = Some h -> bool_decide (is_Some (handler s0)) = true) as Hb.
  { intros s0 ->. by apply bool_decide_eq_true_2. }
  destruct (isSync method); simpl.
  - destruct (bool_decide (accepted s = ∅)) eqn:Hacc; simpl;
      repeat (rewrite Hb by (simpl; exact Hh); simpl).
    + eexists. split; [done|]. simpl. split_and!; try done.
      intros _. by exists [].
    + eexists. split; [done|]. simpl. split_and!; try done.
      intros _. eexists [_]. by rewrite <- app_assoc.
  - eexists. split; [done|]. simpl. split_and!; done.
Qed.

Lemma completeExecutionSyncs_blocked queue :
  forall called (s : SessionState R) r s',
    completeExecutionSyncs queue called s = Ok r s' ->
    pendingExecutionSyncs s = queue ->
    syncs_blocked s'.
Proof.
  induction queue as [|id queue IH]; intros called s r s'; simpl.
  - intros [= <- <-] Hq. unfold syncs_blocked. by rewrite Hq.
  - unfold bind at 1. unfold receiverGetIncomplete_front.
    destruct (front (receiverIncomplete s)) as [lo|] eqn:Efront; [|done].
    destruct (seq_lt lo id) eqn:Ele; simpl.
    + intros [= <- <-] Hq. unfold syncs_blocked. rewrite Hq.
      exists lo. split; [by apply front_in|done].
    + unfold bind at 1. unfold modify at 1. unfold bind at 1.
      destruct (receiverCompleted_fields id (set_pendingExecutionSyncs queue s))
        as (Hrc & _ & _ & _ & _ & _ & Hpes).
      rewrite Hrc. intros Hloop _. eapply IH; [done|]. by rewrite Hpes.
Qed.

(** X14: when [completeRcvMsg] returns, what is left of the queue of
    pending execution.sync commands is a suffix of the queue before,
    the ids taken from its front are no longer incomplete, and the
    queue is blocked: it is empty or an id that is before its head, in
    the order of the wrap-around sequence, is still incomplete.  No
    sync that could complete is left waiting. *)
Theorem completeRcvMsg_flushes_queue msg (s s' : SessionState R) :
  completeRcvMsg msg s = Ok tt s' ->
  exists flushed,
    pendingExecutionSyncs s = flushed ++ pendingExecutionSyncs s' /\
    (forall q, q ∈ flushed -> q ∉ receiverIncomplete s') /\
    receiverIncomplete s'
    = receiverIncomplete s ∖ ({[getCommandId msg]} ∪ list_to_set flushed) /\
    syncs_blocked s'.
Proof.
  intros Hrun. rewrite completeRcvMsg_unfold in Hrun. cbv zeta in Hrun.
  set (s_a := state_of (receiverCompleted (getCommandId msg) s)) in *.
  set (s_b := if requiresAccept msg then _ else s_a) in *.
  destruct (receiverCompleted_fields (getCommandId msg) s)
    as (_ & Hinc_a & _ & _ & _ & _ & Hpes_a). fold s_a in Hinc_a, Hpes_a.
  assert (receiverIncomplete s_b = receiverIncomplete s_a /\
          pendingExecutionSyncs s_b = pendingExecutionSyncs s_a) as (Hinc_b & Hpes_b).
  { subst s_b. by destruct (requiresAccept msg). }
  destruct (completeExecutionSyncs _ _ _) as [r s_c|e s_c] eqn:Eloop; [|done].
  pose proof (completeExecutionSyncs_blocked _ _ _ _ _ Eloop eq_refl) as Hblocked.
  apply (completeExecutionSyncs_spec (receiverCurrent s)) in Eloop
    as (flushed & rest & Hsplit & Hinc_c & _ & _ & -> & _ & _ & _ & Hnil & Hcons).
  assert (pendingExecutionSyncs s_c = rest) as Hpes_c.
  { destruct (decide (flushed = [])) as [-> | Hne]; [|by apply Hcons].
    rewrite (Hnil eq_refl). by rewrite Hsplit. }
  assert (receiverIncomplete s' = receiverIncomplete s_c /\
          pendingExecutionSyncs s' = pendingExecutionSyncs s_c) as (Hinc' & Hpes').
  { destruct (frames_getMethod _) as [method|]; [|done].
    destruct (isSync method).
    - pose proof (sendAcceptAndCompletion_Ok _ _ Hrun) as Hatt.
      destruct (sendAcceptAndCompletion_attached s_c Hatt)
        as (s2 & Hs2 & _ & _ & Hi & _ & Hp & _).
      rewrite Hs2 in Hrun. by injection Hrun as <-.
    - destruct (_ || _).
      + revert Hrun. run. destruct (isAttached s_c); [|done]. by intros [= <-].
      + by injection Hrun as <-. }
  exists flushed. split_and!.
  - rewrite Hpes', Hpes_c, <- Hsplit, Hpes_b, Hpes_a. done.
  - intros q Hq. rewrite Hinc', Hinc_c, elem_of_difference, elem_of_list_to_set. tauto.
  - rewrite Hinc', Hinc_c, Hinc_b, Hinc_a. apply set_eq. intros x.
    rewrite !elem_of_difference, elem_of_union. tauto.
  - unfold syncs_blocked in *. by rewrite Hpes', Hinc'.
Qed.

(** ** Accepts and completions *)

(** X15: accepts are batched.  With no execution.sync pending, the
    completion of a message whose transfer is not marked sync sends
    nothing (it returns on a detached session too): the id moves to the
    completed ids and, when the transfer asks for an accept, to the
    pending accepts.  The completion of a message marked sync sends the
    pending accepts, those of the messages before it and its own, in
    one message.accept, then the completion, and leaves none pending. *)
Theorem completeRcvMsg_batches_accepts msg method (s : SessionState R) :
  frames_getMethod (getFrames msg) = Some method ->
  pendingExecutionSyncs s = [] ->
  let pending := if requiresAccept msg then {[getCommandId msg]} ∪ accepted s
                 else accepted s in
  (isSync method = false ->
     exists s',
       completeRcvMsg msg s = Ok tt s' /\
       out s' = out s /\ accepted s' = pending /\
       receiverIncomplete s' = receiverIncomplete s ∖ {[getCommandId msg]}) /\
  (isSync method = true -> isAttached s = true ->
     exists s',
       completeRcvMsg msg s = Ok tt s' /\
       accepted s' = ∅ /\
       out s' = out s
                ++ (if bool_decide (pending = ∅) then [] else [MessageAccept pending])
                ++ [SessionCompleted (receiverUnknownCompleted s')] /\
       receiverIncomplete s' = receiverIncomplete s ∖ {[getCommandId msg]}).
Proof.
  intros Hmethod Hqueue pending.
  rewrite completeRcvMsg_unfold. cbv zeta.
  set (s_a := state_of (receiverCompleted (getCommandId msg) s)).
  set (s_b := if requiresAccept msg then _ else s_a).
  destruct (receiverCompleted_fields (getCommandId msg) s)
    as (_ & Hinc_a & Hout_a & Hacc_a & Hh_a & _ & Hpes_a).
  fold s_a in Hinc_a, Hout_a, Hacc_a, Hh_a, Hpes_a.
  assert (receiverIncomplete s_b = receiverIncomplete s ∖ {[getCommandId msg]} /\
          out s_b = out s /\ pendingExecutionSyncs s_b = [] /\ accepted s_b = pending /\
          handler s_b = handler s) as (Hinc_b & Hout_b & Hpes_b & Hacc_b & Hh_b).
  { subst s_b pending. destruct (requiresAccept msg); simpl;
      rewrite ?Hinc_a, ?Hout_a, ?Hpes_a, ?Hacc_a, ?Hh_a; done. }
  rewrite Hpes_b. simpl. unfold ret. rewrite Hmethod. split.
  - intros ->. exists s_b. done.
  - intros -> Hatt.
    destruct (sendAcceptAndCompletion_attached s_b) as (s' & Hrun & Ho & Ha & Hi & Hu & _).
    { unfold isAttached in *. by rewrite Hh_b. }
    exists s'. split_and!; try done.
    + rewrite Ho. unfold accept_and_completion. by rewrite Hacc_b, Hout_b, Hu.
    + by rewrite Hi.
Qed.

(** X16: the pending accepts are sent once.  On an attached session
    [sendAcceptAndCompletion] sends the pending accepts, when there are
    any, in one message.accept, then the completed ids, and leaves no
    accept pending; so a second call sends the completed ids alone. *)
Theorem sendAcceptAndCompletion_sends_accepts_once (s : SessionState R) :
  isAttached s = true ->
  exists s1 s2,
    sendAcceptAndCompletion s = Ok tt s1 /\
    out s1 = out s
             ++ (if bool_decide (accepted s = ∅) then [] else [MessageAccept (accepted s)])
             ++ [SessionCompleted (receiverUnknownCompleted s)] /\
    accepted s1 = ∅ /\
    sendAcceptAndCompletion s1 = Ok tt s2 /\
    out s2 = out s1 ++ [SessionCompleted (receiverUnknownCompleted s)] /\
    accepted s2 = ∅.
Proof.
  intros Hatt.
  destruct (sendAcceptAndCompletion_attached s Hatt)
    as (s1 & Hrun1 & Ho1 & Ha1 & _ & Hu1 & _ & _ & Hh1).
  destruct (sendAcceptAndCompletion_attached s1)
    as (s2 & Hrun2 & Ho2 & Ha2 & _).
  { unfold isAttached in *. by rewrite Hh1. }
  exists s1, s2. split_and!; try done.
  rewrite Ho2. unfold accept_and_completion. rewrite Ha1, Hu1.
  by rewrite bool_decide_eq_true_2.
Qed.

(** ** Detach and attach *)

(** X17: a detach followed by an attach keeps the command cursor, the
    queue of pending syncs, the pending accepts, the flow control and
    the pending receives; in between the session is not attached, and
    the one call made is the detach of the semantic layer. *)
Theorem detach_attach_keeps_cursor h (s : SessionState R) :
  exists s1 s2,
    detach s = Ok tt s1 /\ isAttached s1 = false /\
    attach h s1 = Ok tt s2 /\ handler s2 = Some h /\
    out s2 = out s ++ [SemanticDetached] /\
    (receiverCurrent s2, receiverIncomplete s2, receiverUnknownCompleted s2,
     senderCommandPoint s2)
    = (receiverCurrent s, receiverIncomplete s, receiverUnknownCompleted s,
       senderCommandPoint s) /\
    (pendingExecutionSyncs s2, accepted s2, rateFlowcontrol s2)
    = (pendingExecutionSyncs s, accepted s, rateFlowcontrol s) /\
    (incompleteRcvMsgs s2, scheduledRcvMsgs s2, objects s2, completed s2)
    = (incompleteRcvMsgs s, scheduledRcvMsgs s, objects s, completed s).
Proof. eexists _, _. unfold detach, attach. run. split_and!; done. Qed.

(** ** Producer flow control *)

(** X18: the scheduled credit task.  [processSendCredit(0)] never takes
    the violation path, stopped flow or not: no message.stop is sent.
    With credit to give, the task sends it in one message.flow and tells
    the flow control; with none and the flow not stopped it does
    nothing more; with none and the flow stopped it logs the warning and
    puts itself back on the timer. *)
Theorem scheduled_credit_task d now (s : SessionState R) rf credit rf1 :
  rateFlowcontrol s = Some rf ->
  receivedMessage now 0 rf = (credit, rf1) ->
  isAttached s = true ->
  exists s',
    ScheduledCreditTask_sendCredit d now s = Ok tt s' /\
    (MessageStop "" ∉ drop (length (out s)) (out s')) /\
    (0 < credit ->
       out s' = out s ++ [MessageFlow "" 0 credit] /\ log s' = log s /\
       rateFlowcontrol s' = Some (sentCredit now credit rf1)) /\
    (credit <= 0 -> flowStopped rf1 = false ->
       out s' = out s /\ log s' = log s /\ rateFlowcontrol s' = Some rf1) /\
    (credit <= 0 -> flowStopped rf1 = true ->
       out s' = out s ++ [TimerAdd d] /\
       log s' = log s ++ [Warning "Reschedule sending credit"] /\
       rateFlowcontrol s' = Some rf1).
Proof.
  intros Hrf Hrecv Hatt.
  unfold ScheduledCreditTask_sendCredit, processSendCredit. run.
  rewrite Hrf. simpl. rewrite Hrecv. simpl.
  unfold isAttached in *. simpl.
  destruct (0 <? credit) eqn:Ec; simpl.
  - rewrite Hatt. simpl. eexists. split; [done|]. simpl.
    rewrite drop_app_length. split_and!; try done; try lia.
    intros Hin. apply list_elem_of_singleton in Hin. done.
  - destruct (flowStopped rf1) eqn:Es; simpl.
    + eexists. split; [done|]. simpl.
      rewrite drop_app_length. split_and!; try done; try lia.
      intros Hin. apply list_elem_of_singleton in Hin. done.
    + eexists. split; [done|]. simpl.
      rewrite drop_all. split_and!; try done; try lia.
      apply not_elem_of_nil.
Qed.

(** X19: the flow control at the end of [handleContent].  A frame that
    does not open a frameset costs no credit and touches nothing, and so
    does any frame on a session without rate control.  For a frame that
    opens a frameset on an attached session whose flow is not stopped,
    the message is counted with the flow control and: with credit to
    give, the credit is sent in one message.flow and no grant is
    scheduled; with none and the flow still not stopped, nothing is sent
    and no grant is scheduled; with none and the flow now stopped,
    nothing is sent and a grant is scheduled after the time of 50
    messages at the rate, 500 ms at most.  Nothing is logged. *)
Theorem handleContent_credit_schedule frame now (s : SessionState R) :
  ((getBof frame && getBos frame) = false ->
     handleContent_credit frame now s = Ok tt s) /\
  (rateFlowcontrol s = None -> handleContent_credit frame now s = Ok tt s) /\
  (forall rf credit rf1,
     getBof frame = true -> getBos frame = true ->
     rateFlowcontrol s = Some rf -> flowStopped rf = false ->
     receivedMessage now 1 rf = (credit, rf1) ->
     isAttached s = true ->
     (0 < credit ->
        exists s',
          handleContent_credit frame now s = Ok tt s' /\
          out s' = out s ++ [MessageFlow "" 0 credit] /\
          flowControlTimer s' = flowControlTimer s /\
          rateFlowcontrol s' = Some (sentCredit now credit rf1) /\
          log s' = log s) /\
     (credit <= 0 -> flowStopped rf1 = false ->
        exists s',
          handleContent_credit frame now s = Ok tt s' /\
          out s' = out s /\
          flowControlTimer s' = flowControlTimer s /\
          rateFlowcontrol s' = Some rf1 /\
          log s' = log s) /\
     (credit <= 0 -> flowStopped rf1 = true -> getRate rf <> 0 ->
        let d := Z.min (TIME_SEC * 50 / getRate rf) (500 * TIME_MSEC) in
        exists s',
          handleContent_credit frame now s = Ok tt s' /\
          out s' = out s ++ [TimerAdd d] /\
          flowControlTimer s' = Some d /\
          rateFlowcontrol s' = Some rf1 /\
          log s' = log s /\
          d <= 500 * TIME_MSEC)).
Proof.
  unfold handleContent_credit. split_and!.
  - intros Hframe. unfold bind, get. destruct (rateFlowcontrol s); [|done].
    by rewrite Hframe.
  - intros Hnone. unfold bind, get. by rewrite Hnone.
  - intros rf credit rf1 Hbof Hbos Hrf Hgo Hrecv Hatt.
    unfold processSendCredit. run. rewrite Hrf, Hbof, Hbos. simpl.
    rewrite Hrf. simpl. rewrite Hgo. simpl. rewrite Hrecv. simpl.
    unfold isAttached in *. simpl.
    split_and!.
    + intros Hc. assert ((0 <? credit) = true) as -> by lia. simpl.
      rewrite Hatt. simpl. eexists. split; [done|]. simpl. done.
    + intros Hc Hs1. assert ((0 <? credit) = false) as -> by lia. simpl.
      rewrite Hs1. simpl. eexists. split; [done|]. simpl. done.
    + intros Hc Hs1 Hrate. assert ((0 <? credit) = false) as -> by lia. simpl.
      rewrite Hs1. simpl. assert ((getRate rf =? 0) = false) as -> by lia.
      eexists. split; [done|]. simpl. split_and!; try done. apply Z.le_min_r.
Qed.

(** ** Completions of pending receives *)

Lemma completeExecutionSyncs_shrinks queue :
  forall called (s : SessionState R),
    receiverIncomplete (state_of (completeExecutionSyncs queue called s))
    ⊆ receiverIncomplete s.
Proof.
  induction queue as [|id queue IH]; intros called s; simpl; [done|].
  unfold bind at 1. unfold receiverGetIncomplete_front.
  destruct (front (receiverIncomplete s)) as [lo|]; [|done].
  destruct (seq_lt lo id); [done|]. simpl.
  unfold bind at 1. unfold modify at 1. unfold bind at 1.
  destruct (receiverCompleted_fields id (set_pendingExecutionSyncs queue s))
    as (Hrc & Hinc & _).
  rewrite Hrc. etrans; [apply IH|]. rewrite Hinc. simpl.
  intros x. rewrite elem_of_difference. tauto.
Qed.

Lemma completeRcvMsg_completes m (s : SessionState R) :
  receiverIncomplete (state_of (completeRcvMsg m s))
  ⊆ receiverIncomplete s ∖ {[getCommandId m]}.
Proof.
  rewrite completeRcvMsg_unfold. cbv zeta.
  set (s_a := state_of (receiverCompleted (getCommandId m) s)).
  set (s_b := if requiresAccept m then _ else s_a).
  destruct (receiverCompleted_fields (getCommandId m) s) as (_ & Hinc_a & _).
  fold s_a in Hinc_a.
  assert (receiverIncomplete s_b = receiverIncomplete s ∖ {[getCommandId m]}) as Hinc_b.
  { subst s_b. by destruct (requiresAccept m). }
  rewrite <- Hinc_b.
  pose proof (completeExecutionSyncs_shrinks (pendingExecutionSyncs s_b) false s_b) as Hc.
  destruct (completeExecutionSyncs _ _ _) as [r s_c|e s_c]; simpl in Hc; [|done].
  destruct (frames_getMethod _) as [method|]; [|done].
  destruct (isSync method).
  - by rewrite sendAcceptAndCompletion_incomplete.
  - destruct r; [|done]. run. by destruct (isAttached s_c).
Qed.

(** X20: a completion that fires off the session's thread, for a
    pending receive that is registered on an attached session.  The
    token leaves the registry for the back of the deque; the I/O
    processing is requested when the deque was empty and not otherwise;
    [completeRcvMsg] is not called and the command cursor and the
    pending accepts are as they were. *)
Theorem complete_async_schedules this i (s : SessionState R) :
  objects s !! this = Some i -> cancelled i = false -> session i = true ->
  this ∈ incompleteRcvMsgs s -> isAttached s = true ->
  exists s',
    complete this false s = Ok tt s' /\
    incompleteRcvMsgs s' = incompleteRcvMsgs s ∖ {[this]} /\
    scheduledRcvMsgs s' = scheduledRcvMsgs s ++ [this] /\
    out s' = out s ++ (if scheduledRcvMsgs s is [] then [RequestIOProcessing] else []) /\
    completed s' = completed s /\
    (receiverIncomplete s', receiverUnknownCompleted s', accepted s',
     pendingExecutionSyncs s')
    = (receiverIncomplete s, receiverUnknownCompleted s, accepted s,
       pendingExecutionSyncs s).
Proof.
  intros Hi Hc Hs Hreg Hatt.
  unfold complete, IncompleteRcvMsg_call, deref. run. rewrite Hi, Hc. simpl.
  rewrite Hi, Hs. simpl. rewrite bool_decide_eq_true_2 by done. simpl.
  unfold isAttached in *. simpl. rewrite Hatt. simpl.
  destruct (handler s) as [h|] eqn:Hh; [|done].
  destruct (scheduledRcvMsgs s) as [|t rest] eqn:Hdeque; simpl.
  - rewrite Hh. eexists. split; [done|]. simpl. done.
  - rewrite bool_decide_eq_false_2.
    + eexists. split; [done|]. simpl. by rewrite app_nil_r.
    + rewrite length_app. simpl. lia.
Qed.

Lemma completeExecutionSyncs_msgBuilder queue :
  forall called (s : SessionState R),
    msgBuilder (state_of (completeExecutionSyncs queue called s)) = msgBuilder s.
Proof.
  induction queue as [|id queue IH]; intros called s; simpl; [done|].
  unfold bind at 1. unfold receiverGetIncomplete_front.
  destruct (front (receiverIncomplete s)) as [lo|]; [|done].
  destruct (seq_lt lo id); [done|]. simpl.
  unfold bind at 1. unfold modify at 1. unfold bind at 1.
  destruct (receiverCompleted_fields id (set_pendingExecutionSyncs queue s)) as (Hrc & _).
  rewrite Hrc, IH. run. by case_decide.
Qed.

Lemma completeRcvMsg_msgBuilder m (s : SessionState R) :
  msgBuilder (state_of (completeRcvMsg m s)) = msgBuilder s.
Proof.
  rewrite completeRcvMsg_unfold. cbv zeta.
  set (s_a := state_of (receiverCompleted (getCommandId m) s)).
  set (s_b := if requiresAccept m then _ else s_a).
  assert (msgBuilder s_b = msgBuilder s) as Hb.
  { subst s_b s_a. run. destruct (requiresAccept m); case_decide; done. }
  pose proof (completeExecutionSyncs_msgBuilder (pendingExecutionSyncs s_b) false s_b) as Hc.
  destruct (completeExecutionSyncs _ _ _) as [r s_c|e s_c]; simpl in Hc;
    [|simpl; congruence].
  destruct (frames_getMethod _) as [method|]; [|simpl; congruence].
  rewrite <- Hb, <- Hc. clear.
  destruct (isSync method); [|destruct r; [|done]]; run.
  - destruct (bool_decide (accepted s_c = ∅)); simpl.
    + by destruct (isAttached s_c).
    + destruct (isAttached s_c) eqn:E; simpl; [|done].
      unfold isAttached in *. simpl. by rewrite E.
  - by destruct (isAttached s_c).
Qed.

Lemma complete_sync_fields this i (s : SessionState R) :
  objects s !! this = Some i -> cancelled i = false -> session i = true ->
  this ∈ incompleteRcvMsgs s -> isAttached s = true ->
  let s' := state_of (complete this true s) in
  same_pending
    (set_completed (completed s ++ [this])
       (set_incompleteRcvMsgs (incompleteRcvMsgs s ∖ {[this]}) s)) s' /\
  receiverIncomplete s' ⊆ receiverIncomplete s ∖ {[getCommandId (msg i)]} /\
  msgBuilder s' = msgBuilder s.
Proof.
  intros Hi Hc Hs Hreg Hatt.
  set (s1 := set_completed (completed s ++ [this])
               (set_incompleteRcvMsgs (incompleteRcvMsgs s ∖ {[this]}) s)).
  assert (complete this true s = completeRcvMsg (msg i) s1) as ->.
  { unfold complete, IncompleteRcvMsg_call, deref.
    unfold bind at 1. rewrite Hi, Hc. unfold bind at 1. rewrite Hi, Hs. simpl.
    unfold bind at 1. unfold get at 1. unfold when at 1.
    rewrite bool_decide_eq_true_2 by done.
    unfold bind at 1. unfold modify at 1. unfold bind at 1. unfold get at 1.
    replace (isAttached (set_incompleteRcvMsgs _ s)) with (isAttached s) by done.
    rewrite Hatt. unfold when at 1. unfold bind at 1. unfold modify at 1. done. }
  cbv zeta. split_and!;
    [apply completeRcvMsg_pending|apply (completeRcvMsg_completes (msg i) s1)|].
  by rewrite completeRcvMsg_msgBuilder.
Qed.

(** X21: a completion that fires on the session's thread, for a pending
    receive that is registered on an attached session, goes to
    [completeRcvMsg] at once: when the call ends, by return or by
    exception, the token has left the registry for the history of
    completions, the deque is as it was, and the command of the message
    is no longer incomplete. *)
Theorem complete_sync_completes this i (s : SessionState R) :
  objects s !! this = Some i -> cancelled i = false -> session i = true ->
  this ∈ incompleteRcvMsgs s -> isAttached s = true ->
  let s' := state_of (complete this true s) in
  incompleteRcvMsgs s' = incompleteRcvMsgs s ∖ {[this]} /\
  completed s' = completed s ++ [this] /\
  scheduledRcvMsgs s' = scheduledRcvMsgs s /\
  (getCommandId (msg i) ∉ receiverIncomplete s') /\
  receiverIncomplete s' ⊆ receiverIncomplete s.
Proof.
  intros Hi Hc Hs Hreg Hatt.
  destruct (complete_sync_fields this i s Hi Hc Hs Hreg Hatt)
    as ((Hr & Hd & Hco & _) & Hsub & _).
  cbv zeta. rewrite Hr, Hd, Hco. split_and!; try done.
  - intros Hin. apply Hsub in Hin. apply elem_of_difference in Hin as [_ Hin].
    apply Hin. by apply elem_of_singleton.
  - intros x Hx. apply Hsub in Hx. by apply elem_of_difference in Hx as [Hx _].
Qed.

Lemma scheduledCompleter_loop_fifo msgs :
  forall s : SessionState R,
    isAttached s = true -> scheduledRcvMsgs s = msgs ->
    (forall t, t ∈ msgs -> exists i, objects s !! t = Some i /\ session i = true) ->
    let r := scheduledCompleter_loop msgs s in
    exists k,
      completed (state_of r) = completed s ++ take k msgs /\
      scheduledRcvMsgs (state_of r) = drop k msgs /\
      (forall s', r = Ok tt s' -> k = length msgs).
Proof.
  induction msgs as [|iMsg rest IH]; intros s Hatt Hdeque Hlive r.
  - exists O. simpl. by rewrite app_nil_r.
  - destruct (Hlive iMsg) as (i & Hi & Hs); [left|].
    set (s2 := set_completed (completed s ++ [iMsg]) (set_scheduledRcvMsgs rest s)).
    assert (r = match completeRcvMsg (msg i) s2 with
                | Ok _ s3 => scheduledCompleter_loop rest s3
                | Throw e s3 => Throw e s3
                end) as Hr.
    { subst r. simpl.
      unfold bind at 1. unfold modify at 1. unfold bind at 1. unfold deref.
      simpl. rewrite Hi.
      unfold bind at 1. unfold get at 1. unfold bind at 1.
      replace (isAttached (set_scheduledRcvMsgs rest s)) with (isAttached s) by done.
      rewrite Hatt, Hs. simpl. unfold bind at 1. unfold modify at 1. done. }
    clearbody r. subst r.
    pose proof (completeRcvMsg_pending (msg i) s2) as (_ & Hd & Hco & Hob & Hh).
    destruct (completeRcvMsg (msg i) s2) as [[] s3|e s3]; simpl in *.
    + destruct (IH s3) as (k & Hk1 & Hk2 & Hk3).
      * unfold isAttached in *. by rewrite Hh.
      * done.
      * intros t Ht. rewrite Hob. apply Hlive. by right.
      * exists (S k). simpl. rewrite Hk1, Hk2, Hco. split_and!; try done.
        -- by rewrite <- app_assoc.
        -- intros s' Hs'. f_equal. by eapply Hk3.
    + exists 1%nat. simpl. rewrite Hco, Hd. by split_and!.
Qed.

(** X22: the drain of the scheduled completions on an attached session
    goes through the deque from its front: the pending receives it
    passes to [completeRcvMsg] are a prefix of the deque, in the order
    in which their completions arrived, and what it has not reached is
    left in the deque.  A drain that returns has gone through all of
    them and leaves the deque empty. *)
Theorem scheduledCompleter_fifo (s : SessionState R) :
  isAttached s = true ->
  (forall t, t ∈ scheduledRcvMsgs s ->
             exists i, objects s !! t = Some i /\ session i = true) ->
  let r := scheduledCompleter s in
  (exists k,
     completed (state_of r) = completed s ++ take k (scheduledRcvMsgs s) /\
     scheduledRcvMsgs (state_of r) = drop k (scheduledRcvMsgs s)) /\
  (forall s', r = Ok tt s' ->
     completed s' = completed s ++ scheduledRcvMsgs s /\ scheduledRcvMsgs s' = []).
Proof.
  intros Hatt Hlive r. subst r. unfold scheduledCompleter, bind, get.
  destruct (scheduledCompleter_loop_fifo (scheduledRcvMsgs s) s Hatt eq_refl Hlive)
    as (k & Hk1 & Hk2 & Hk3).
  split; [by exists k|].
  intros s' Hs'. specialize (Hk3 s' Hs'). rewrite Hs' in Hk1, Hk2. simpl in *.
  subst k. by rewrite firstn_all in Hk1; rewrite drop_all in Hk2.
Qed.

(** X23: at every state that the calls on the registry reach from a
    session without pending receives, a token is in at most one of the
    registry, the deque and the history of completions, and in the
    deque at most once; a registered token has its pending receive,
    with the back-pointer set and the completion not cancelled; a
    pending receive that is cancelled is out of the registry. *)
Theorem pending_receives_partition (s0 : SessionState R) (calls : list Call) :
  objects s0 = ∅ -> incompleteRcvMsgs s0 = ∅ ->
  scheduledRcvMsgs s0 = [] -> completed s0 = [] ->
  let s := run calls s0 in
  NoDup (scheduledRcvMsgs s) /\
  (forall t, t ∈ incompleteRcvMsgs s ->
     (t ∉ scheduledRcvMsgs s) /\ (t ∉ completed s) /\
     exists i, objects s !! t = Some i /\ session i = true /\ cancelled i = false) /\
  (forall t, t ∈ scheduledRcvMsgs s ->
     (t ∉ completed s) /\ is_Some (objects s !! t)) /\
  (forall t i, objects s !! t = Some i -> cancelled i = true ->
     (t ∉ incompleteRcvMsgs s) /\ session i = false).
Proof.
  intros Ho Hr Hs Hc s.
  assert (pending_wf s) as (H1 & H2 & H3 & H4 & H5 & H6)
    by (apply run_wf; by apply pending_wf_initial).
  split_and!; [done| | |].
  - intros t Ht. split_and!.
    + intros Hin. by destruct (H3 t Hin).
    + intros Hin. by apply (H4 t Hin).
    + destruct (H5 t) as [i Hi]; [by left|]. exists i. split; [done|].
      destruct (session i) eqn:Es, (cancelled i) eqn:Ec; try done.
      * destruct (H6 t i Hi) as (Hn & _); [by left|]. done.
      * destruct (H6 t i Hi) as (Hn & _); [by left|]. done.
      * destruct (H6 t i Hi) as (Hn & _); [by right|]. done.
  - intros t Ht. destruct (H3 t Ht). split; [done|]. apply H5. auto.
  - intros t i Hi Hcan. destruct (H6 t i Hi) as (? & _ & ?); [by left|]. done.
Qed.

(** ** A message handled at once *)

(** X24: a content-bearing command of one frame (the frame opens and
    ends the frameset) on an attached session, with a semantic layer
    that leaves no asynchronous completer on the message and the session
    as it is but for its output.  The message handed on has the frame
    and an empty header.  When [handleContent] is through with the
    message, by return or by exception, the message builder is empty,
    the pending receive made for the message has gone to
    [completeRcvMsg] and is not in the registry, which is as before, and
    the command is no longer incomplete. *)
Theorem handleContent_completes_at_once frame id (s : SessionState R) o :
  getBof frame = true -> getBos frame = true ->
  getEof frame = true -> getEos frame = true ->
  isAttached s = true ->
  let m := mkMessage id [frame; dummy_header] true in
  let this := fresh (dom (objects s)) in
  semanticState_handle m (set_msgBuilder (Some m) s)
    = Ok false (set_out o (set_msgBuilder (Some m) s)) ->
  (forall t, t ∈ incompleteRcvMsgs s ->
     exists i, objects s !! t = Some i /\ getCommandId (msg i) <> id) ->
  let s' := state_of (handleContent_message frame id s) in
  msgBuilder s' = None /\
  objects s' !! this = Some (mkIncomplete true m false) /\
  incompleteRcvMsgs s' = incompleteRcvMsgs s /\
  completed s' = completed s ++ [this] /\
  scheduledRcvMsgs s' = scheduledRcvMsgs s /\
  (id ∉ receiverIncomplete s').
Proof.
  intros Hbof Hbos Heof Heos Hatt m this Hsem Hreg.
  set (s3 := set_msgBuilder None (set_out o (set_msgBuilder (Some m) s))).
  set (s4 := set_incompleteRcvMsgs ({[this]} ∪ incompleteRcvMsgs s3)
               (set_objects (<[this := mkIncomplete true m false]> (objects s3)) s3)).
  assert (handleContent_message frame id s = complete this true s4) as ->.
  { unfold handleContent_message. rewrite Hbof, Hbos, Heof, Heos. simpl.
    unfold msgBuilder_start, msgBuilder_handle, update_msg, the_msg, msgBuilder_end.
    unfold getConnection, when, bind, modify, ret. simpl.
    unfold isAttached in Hatt.
    destruct (handler s) as [h|] eqn:Hh; [|done]. simpl.
    change (semanticState_handle _ _)
      with (semanticState_handle m (set_msgBuilder (Some m) s)).
    rewrite Hsem. simpl.
    unfold createPendingMsg. simpl.
    rewrite bool_decide_eq_false_2; [done|].
    intros (t & Ht & Hm). destruct (Hreg t Ht) as (i & Hi & Hne).
    rewrite Hi in Hm. simpl in Hm. injection Hm as Hm. apply Hne. by rewrite Hm. }
  assert (objects s !! this = None) as Hfresh.
  { apply not_elem_of_dom. apply is_fresh. }
  assert (this ∉ incompleteRcvMsgs s) as Hnotin.
  { intros Hin. destruct (Hreg this Hin) as (i & Hi & _). congruence. }
  destruct (complete_sync_fields this (mkIncomplete true m false) s4)
    as ((Hr & Hd & Hco & Hob & _) & Hsub & Hmb).
  { subst s4. simpl. by rewrite lookup_insert_eq. }
  { done. }
  { done. }
  { subst s4. simpl. apply elem_of_union_l. by apply elem_of_singleton. }
  { done. }
  cbv zeta. rewrite Hr, Hd, Hco, Hob, Hmb. simpl.
  split_and!; try done.
  - by rewrite lookup_insert_eq.
  - apply set_eq. intros x. rewrite elem_of_difference, elem_of_union, elem_of_singleton.
    split; [tauto|]. intros Hx. split; [by right|]. by intros ->.
  - intros Hin. apply Hsub in Hin. apply elem_of_difference in Hin as [_ Hin].
    apply Hin. by apply elem_of_singleton.
Qed.

End BrokerMoreFacts.

Section BrokerMoreScenarios.
Import Broker BrokerMore.

(** An execution.sync as command 0, after the ids have wrapped, with
    every command before it complete. *)
Lemma execution_sync_completes_at_dispatch_witness :
  exists s',
    handleCommand execution_sync 0 (receiving 0 {[0]} [] None) = Ok tt s' /\
    receiverIncomplete s' = {[0]} ∖ {[0]} /\ pendingExecutionSyncs s' = [].
Proof.
  destruct (execution_sync_completes_at_dispatch execution_sync (receiving 0 {[0]} [] None))
    as (s' & Hrun & Hinc & _ & Hqueue & _).
  - reflexivity.
  - by apply elem_of_singleton.
  - intros c Hc. simpl in Hc. apply elem_of_singleton in Hc. subst c. reflexivity.
  - reflexivity.
  - exists s'. split_and!; [exact Hrun|exact Hinc|exact Hqueue].
Defined.

(** The ids wrap: commands 4294967294, 4294967295, 0 and 1 are
    incomplete, the syncs 4294967295 and 1 wait; command 4294967294
    completes: sync 4294967295 goes with it, sync 1 waits for
    command 0. *)
Lemma completeRcvMsg_flushes_queue_witness :
  exists s',
    completeRcvMsg (message_of 4294967294 false)
      (receiving 2 (list_to_set [4294967294; 4294967295; 0; 1]) [4294967295; 1] None)
      = Ok tt s' /\
    pendingExecutionSyncs s' = [1] /\ syncs_blocked s'.
Proof.
  eexists. split; [vm_compute; reflexivity|]. split; [reflexivity|].
  match goal with
  | |- syncs_blocked ?s' =>
      destruct (completeRcvMsg_flushes_queue (message_of 4294967294 false)
                  (receiving 2 (list_to_set [4294967294; 4294967295; 0; 1])
                     [4294967295; 1] None) s')
        as (flushed & _ & _ & _ & Hblocked)
  end.
  - vm_compute. reflexivity.
  - exact Hblocked.
Defined.

(** Transfer 1 is not marked sync, transfer 2 is; both ask for an
    accept. *)
Lemma completeRcvMsg_batches_accepts_witness :
  exists s1 s2,
    completeRcvMsg (message_of 1 false) (receiving 3 (list_to_set [1; 2]) [] None)
      = Ok tt s1 /\
    out s1 = [] /\
    completeRcvMsg (message_of 2 true) s1 = Ok tt s2 /\
    out s2 = [MessageAccept (list_to_set [1; 2]); SessionCompleted (list_to_set [1; 2])].
Proof.
  destruct (completeRcvMsg_batches_accepts (message_of 1 false) (transfer false)
              (receiving 3 (list_to_set [1; 2]) [] None)) as (Hquiet & _);
    [reflexivity..|].
  destruct Hquiet as (s1 & Hrun1 & Hout1 & _); [reflexivity|].
  exists s1. eexists. split; [done|]. split; [done|].
  vm_compute in Hrun1. injection Hrun1 as <-.
  split; vm_compute; reflexivity.
Defined.

Lemma sendAcceptAndCompletion_sends_accepts_once_witness :
  exists s1 s2,
    sendAcceptAndCompletion (set_accepted {[1]} (receiving 2 ∅ [] None)) = Ok tt s1 /\
    sendAcceptAndCompletion s1 = Ok tt s2 /\
    out s2 = [MessageAccept {[1]}; SessionCompleted ∅; SessionCompleted ∅].
Proof.
  destruct (sendAcceptAndCompletion_sends_accepts_once
              (set_accepted {[1]} (receiving 2 ∅ [] None)))
    as (s1 & s2 & Hrun1 & Hout1 & _ & Hrun2 & Hout2 & _); [reflexivity|].
  exists s1, s2. split_and!; [done|done|].
  rewrite Hout2, Hout1. reflexivity.
Defined.

(** The flow is stopped and the timer fires: no credit, no
    message.stop, the task goes back on the timer. *)
Lemma scheduled_credit_task_witness :
  exists s',
    ScheduledCreditTask_sendCredit 500000000 100
      (receiving 0 ∅ [] (Some (mkBucket 10 10))) = Ok tt s' /\
    out s' = [TimerAdd 500000000] /\
    log s' = [Warning "Reschedule sending credit"].
Proof.
  destruct (scheduled_credit_task 500000000 100 (receiving 0 ∅ [] (Some (mkBucket 10 10)))
              (mkBucket 10 10) 0 (mkBucket 10 10))
    as (s' & Hrun & _ & _ & _ & Hagain); [reflexivity..|].
  destruct Hagain as (Hout & Hlog & _); [lia|reflexivity|].
  exists s'. split_and!; done.
Defined.

(** A rate of one message a second and a first message: no credit is
    left, the flow is stopped, a grant is scheduled in 500 ms. *)
Lemma handleContent_credit_schedule_witness :
  exists s',
    handleContent_credit (mkFrame (MethodBody (transfer false)) true false true true) 100
      (metering 0 {[0]} (mkMeter 1 0)) = Ok tt s' /\
    flowControlTimer s' = Some 500000000 /\ out s' = [TimerAdd 500000000].
Proof.
  destruct (handleContent_credit_schedule
              (mkFrame (MethodBody (transfer false)) true false true true) 100
              (metering 0 {[0]} (mkMeter 1 0))) as (_ & _ & Hopening).
  destruct (Hopening (mkMeter 1 0) 0 (mkMeter 1 1)) as (_ & _ & Hschedule);
    [reflexivity..|].
  destruct Hschedule as (s' & Hrun & Hout & Htimer & _); [lia|reflexivity|simpl; lia|].
  exists s'. split_and!; [exact Hrun|exact Htimer|exact Hout].
Defined.

(** One transfer is pending and its completion fires off the session's
    thread. *)
Lemma complete_async_schedules_witness :
  exists s',
    complete 1%positive false
      (run [Register (message_of 0 false)] (receiving 1 {[0]} [] None)) = Ok tt s' /\
    scheduledRcvMsgs s' = [1%positive] /\ out s' = [RequestIOProcessing] /\
    receiverIncomplete s' = {[0]}.
Proof.
  destruct (complete_async_schedules 1%positive (mkIncomplete true (message_of 0 false) false)
              (run [Register (message_of 0 false)] (receiving 1 {[0]} [] None)))
    as (s' & Hrun & _ & Hdeque & Hout & _ & Hfields).
  - vm_compute. reflexivity.
  - reflexivity.
  - reflexivity.
  - vm_compute. reflexivity.
  - reflexivity.
  - exists s'. split_and!; [done|done|done|]. by injection Hfields.
Defined.

(** One transfer is pending and its completion fires on the session's
    thread. *)
Lemma complete_sync_completes_witness :
  exists s',
    complete 1%positive true
      (run [Register (message_of 0 false)] (receiving 1 {[0]} [] None)) = Ok tt s' /\
    completed s' = [1%positive] /\ scheduledRcvMsgs s' = [] /\
    (0 ∉ receiverIncomplete s').
Proof.
  eexists. split; [vm_compute; reflexivity|].
  destruct (complete_sync_completes 1%positive (mkIncomplete true (message_of 0 false) false)
              (run [Register (message_of 0 false)] (receiving 1 {[0]} [] None)))
    as (_ & Hdone & Hdeque & Hgone & _).
  - vm_compute. reflexivity.
  - reflexivity.
  - reflexivity.
  - vm_compute. reflexivity.
  - reflexivity.
  - split_and!; [exact Hdone|exact Hdeque|exact Hgone].
Defined.

(** Two transfers are pending; the completion of the second fires
    before that of the first, both off the session's thread. *)
Lemma scheduledCompleter_fifo_witness :
  exists s',
    scheduledCompleter
      (run [Register (message_of 0 false); Register (message_of 1 false);
            Complete 2%positive false; Complete 1%positive false]
         (receiving 2 (list_to_set [0; 1]) [] None)) = Ok tt s' /\
    completed s' = [2%positive; 1%positive] /\ scheduledRcvMsgs s' = [].
Proof.
  eexists. split; [vm_compute; reflexivity|].
  destruct (scheduledCompleter_fifo
              (run [Register (message_of 0 false); Register (message_of 1 false);
                    Complete 2%positive false; Complete 1%positive false]
                 (receiving 2 (list_to_set [0; 1]) [] None))) as (_ & Hall).
  - reflexivity.
  - intros t Ht. vm_compute in Ht.
    apply elem_of_cons in Ht as [-> | Ht];
      [|apply elem_of_cons in Ht as [-> | Ht]; [|by apply elem_of_nil in Ht]];
      eexists; (split; [vm_compute; reflexivity|reflexivity]).
  - cbv zeta in Hall. edestruct Hall as (Hdone & Hdeque); [vm_compute; reflexivity|].
    split; [exact Hdone|exact Hdeque].
Defined.

(** Three transfers: the first completes off the session's thread, the
    second on it, the third is pending at the detach. *)
Lemma pending_receives_partition_witness :
  NoDup (scheduledRcvMsgs
           (run [Register (message_of 0 false); Register (message_of 1 false);
                 Register (message_of 2 false); Complete 1%positive false;
                 Complete 2%positive true; Detach]
              (receiving 3 (list_to_set [0; 1; 2]) [] None))).
Proof.
  destruct (pending_receives_partition (receiving 3 (list_to_set [0; 1; 2]) [] None)
              [Register (message_of 0 false); Register (message_of 1 false);
               Register (message_of 2 false); Complete 1%positive false;
               Complete 2%positive true; Detach]) as (Hnodup & _);
    [reflexivity..|exact Hnodup].
Defined.

(** Scenario S1: a transfer of one frame set; the semantic layer takes
    the message and completes the receive before it returns. *)
Lemma handleContent_completes_at_once_witness :
  exists s',
    handleContent_message (mkFrame (MethodBody (transfer false)) true true true true) 0
      (receiving 0 {[0]} [] None) = Ok tt s' /\
    msgBuilder s' = None /\ completed s' = [1%positive] /\
    incompleteRcvMsgs s' = ∅ /\ (0 ∉ receiverIncomplete s').
Proof.
  eexists. split; [vm_compute; reflexivity|].
  destruct (handleContent_completes_at_once
              (mkFrame (MethodBody (transfer false)) true true true true) 0
              (receiving 0 {[0]} [] None) [])
    as (Hbuilder & _ & Hreg & Hdone & _ & Hgone).
  - reflexivity.
  - reflexivity.
  - reflexivity.
  - reflexivity.
  - reflexivity.
  - reflexivity.
  - intros t Ht. by apply elem_of_empty in Ht.
  - split_and!; [exact Hbuilder|exact Hdone|exact Hreg|exact Hgone].
Defined.

End BrokerMoreScenarios.
